(** * Streaming guardrails agent: redaction, detection fail-open and the
      sanitisation drivers

    A shallow embedding of the TypeScript sources

    - [redaction.ts]             ([redactConfidential], [redactPII]),
    - [pii-detection.ts]         ([detectPII]),
    - [confidential-detection.ts] ([detectConfidential]),
    - the three [GuardrailStreamer] entry points (confidential variant,
      PII variant, PII variant with the size-or-sentence flush policy),

    followed by the properties of the specification that are stated about
    them. *)

From Stdlib Require Import String Ascii.
From Stdlib Require Import List NArith ZArith Arith Bool Lia.
From Stdlib Require Import Permutation Sorted.
Import ListNotations.

Set Implicit Arguments.

(* ===================================================================== *)
(** ** JavaScript strings *)
(* ===================================================================== *)

(** A JavaScript string is a finite sequence of UTF-16 code units; [length],
    [slice], [replaceAll] and a regular expression without the [u] flag all
    work on code units.  A code unit is modelled by its number. *)
Definition code_unit := N.
Definition str := list code_unit.

(** String literals of the sources (all of them are ASCII). *)
Definition lit (s : string) : str := map N_of_ascii (list_ascii_of_string s).

(** The line feed written as [\n] in the sources. *)
Definition LF : code_unit := 10%N.

Module JS.

(** Truthiness of a string: the empty string is the only falsy one. *)
Definition truthy (s : str) : bool :=
  match s with [] => false | _ :: _ => true end.

(** [s.slice(k)] for an index [0 <= k]. *)
Definition slice (k : nat) (s : str) : str := skipn k s.

(** [s.slice(-n)]: the last [n] code units, the whole string when it is
    shorter; [-0] is [0], so [s.slice(-0)] is the whole string. *)
Definition slice_last (n : nat) (s : str) : str :=
  match n with
  | O => s
  | S _ => skipn (length s - n) s
  end.

(** Does [t] start with [v]? *)
Fixpoint starts_with (v t : str) : bool :=
  match v, t with
  | [], _ => true
  | _ :: _, [] => false
  | a :: v', b :: t' => N.eqb a b && starts_with v' t'
  end.

(** Left-to-right replacement of the non-overlapping occurrences of a
    non-empty [v] by [m].  [skip] counts the code units of the occurrence
    just replaced that are still to be passed over. *)
Fixpoint replace_scan (v m : str) (skip : nat) (t : str) : str :=
  match t with
  | [] => []
  | c :: t' =>
      match skip with
      | S k => replace_scan v m k t'
      | O =>
          if starts_with v t
          then m ++ replace_scan v m (length v - 1) t'
          else c :: replace_scan v m 0 t'
      end
  end.

(** [t.replaceAll(v, m)] for a string pattern [v] and a replacement [m]
    without [$] patterns.  The empty pattern matches at every position,
    the end included: the replacement is put before every code unit and
    after the last one. *)
Definition replaceAll (t v m : str) : str :=
  match v with
  | [] => m ++ flat_map (fun c => c :: m) t
  | _ :: _ => replace_scan v m 0 t
  end.

(** The characters of the class [[.*+?^${}()|[\]\\]]. *)
Definition syntax_character (c : code_unit) : bool :=
  existsb (N.eqb c) (lit ".*+?^${}()|[]\").

Definition backslash : code_unit := 92%N.

(** [v.replace(/[.*+?^${}()|[\]\\]/g, '\\$&')]: a backslash is put before
    every syntax character. *)
Definition escape (v : str) : str :=
  flat_map (fun c => if syntax_character c then [backslash; c] else [c]) v.

(** [new RegExp(p, 'g')] for a pattern made of pattern characters and
    identity escapes, which is all that [escape] produces: the sequence
    of code units the pattern matches. *)
Fixpoint RegExp (p : str) : list code_unit :=
  match p with
  | [] => []
  | c :: p' =>
      if N.eqb c backslash
      then match p' with
           | [] => [c]
           | d :: p'' => d :: RegExp p''
           end
      else c :: RegExp p'
  end.

(** [t.replace(re, m)] for a global regular expression [re] that matches
    a fixed, non-empty sequence of code units, and [m] without [$]
    patterns. *)
Definition replace (t : str) (re : list code_unit) (m : str) : str :=
  replace_scan re m 0 t.

(** White space and line terminators: what [\s] matches and what [trim]
    removes. *)
Definition white_space (c : code_unit) : bool :=
  existsb (N.eqb c)
    [9; 10; 11; 12; 13; 32; 160; 5760; 8192; 8193; 8194; 8195; 8196; 8197;
     8198; 8199; 8200; 8201; 8202; 8232; 8233; 8239; 8287; 12288; 65279]%N.

Fixpoint trimStart (s : str) : str :=
  match s with
  | [] => []
  | c :: s' => if white_space c then trimStart s' else s
  end.

Definition trim (s : str) : str := rev (trimStart (rev (trimStart s))).

(** [xs.join(sep)]. *)
Fixpoint join (sep : str) (xs : list str) : str :=
  match xs with
  | [] => []
  | [x] => x
  | x :: xs' => x ++ sep ++ join sep xs'
  end.

(** [s.toUpperCase()] on the ASCII letters, which is all the type names
    contain. *)
Definition toUpperCase (s : str) : str :=
  map (fun c => if (97 <=? c)%N && (c <=? 122)%N then (c - 32)%N else c) s.

Fixpoint digits (u : Decimal.uint) : str :=
  match u with
  | Decimal.Nil => []
  | Decimal.D0 u' => 48%N :: digits u'
  | Decimal.D1 u' => 49%N :: digits u'
  | Decimal.D2 u' => 50%N :: digits u'
  | Decimal.D3 u' => 51%N :: digits u'
  | Decimal.D4 u' => 52%N :: digits u'
  | Decimal.D5 u' => 53%N :: digits u'
  | Decimal.D6 u' => 54%N :: digits u'
  | Decimal.D7 u' => 55%N :: digits u'
  | Decimal.D8 u' => 56%N :: digits u'
  | Decimal.D9 u' => 57%N :: digits u'
  end.

(** A length interpolated in a template literal: its decimal digits. *)
Definition number (n : nat) : str := digits (Nat.to_uint n).

(** [Array.prototype.sort] is stable.  [cmp a b <= 0] keeps [a] before
    [b]; [a] came before every element of [l] in the array. *)
Fixpoint sort_insert {A} (cmp : A -> A -> Z) (a : A) (l : list A) : list A :=
  match l with
  | [] => [a]
  | b :: l' =>
      if (cmp a b <=? 0)%Z then a :: l else b :: sort_insert cmp a l'
  end.

Fixpoint sort {A} (cmp : A -> A -> Z) (l : list A) : list A :=
  match l with
  | [] => []
  | a :: l' => sort_insert cmp a (sort cmp l')
  end.

End JS.

(* ===================================================================== *)
(** ** Detected items and redaction ([redaction.ts]) *)
(* ===================================================================== *)

(** [z.enum(['email', 'phone', 'ssn', 'credit_card'])] *)
Inductive PiiType := email | phone | ssn | credit_card.

(** [z.enum(['financial', 'product', 'rnd', 'contact', 'strategy'])] *)
Inductive ConfidentialType := financial | product | rnd | contact | strategy.

(** [{ type, value }], the shape of both [PiiItem] and
    [ConfidentialItem]. *)
Record Item (K : Type) := { type : K; value : str }.

Definition PiiItem := Item PiiType.
Definition ConfidentialItem := Item ConfidentialType.

Definition PiiType_name (k : PiiType) : str :=
  match k with
  | email => lit "email"
  | phone => lit "phone"
  | ssn => lit "ssn"
  | credit_card => lit "credit_card"
  end.

Definition ConfidentialType_name (k : ConfidentialType) : str :=
  match k with
  | financial => lit "financial"
  | product => lit "product"
  | rnd => lit "rnd"
  | contact => lit "contact"
  | strategy => lit "strategy"
  end.

Definition REDACTION_MARKERS (k : ConfidentialType) : str :=
  match k with
  | financial => lit "[REDACTED:FINANCIAL]"
  | product => lit "[REDACTED:PRODUCT]"
  | rnd => lit "[REDACTED:RND]"
  | contact => lit "[REDACTED:CONTACT]"
  | strategy => lit "[REDACTED:STRATEGY]"
  end.

(** The body of the [for] loop of [redactConfidential]. *)
Definition redactConfidential_step (redactedText : str) (item : ConfidentialItem)
  : str :=
  if negb (JS.truthy (value item)) then redactedText
  else
    let escaped := JS.escape (value item) in
    JS.replace redactedText (JS.RegExp escaped) (REDACTION_MARKERS (type item)).

Definition redactConfidential (text : str) (items : list ConfidentialItem) : str :=
  if Nat.eqb (length items) 0 then text
  else
    let sorted :=
      JS.sort (fun a b => (Z.of_nat (length (value b))
                           - Z.of_nat (length (value a)))%Z) items in
    fold_left redactConfidential_step sorted text.

(** The marker [`[REDACTED:${item.type.toUpperCase()}]`] of [redactPII]. *)
Definition pii_marker (k : PiiType) : str :=
  lit "[REDACTED:" ++ JS.toUpperCase (PiiType_name k) ++ lit "]".

(** The body of the [for] loop of [redactPII]. *)
Definition redactPII_step (redactedText : str) (item : PiiItem) : str :=
  JS.replaceAll redactedText (value item) (pii_marker (type item)).

Definition redactPII (text : str) (piiItems : list PiiItem) : str :=
  if Nat.eqb (length piiItems) 0 then text
  else fold_left redactPII_step piiItems text.

(* ===================================================================== *)
(** ** Effects: channels, the detection model, the logger *)
(* ===================================================================== *)

(** The two output streams of a session. *)
Inductive chan := mainStream | auditStream.

(** The calls a session makes to its collaborators. *)
Inductive call :=
| ChanWrite (c : chan) (data : str)   (* [await c.write(data)] *)
| ChanClose (c : chan)                (* [await c.close()] *)
| GenerateObject (text : str)         (* [await generateObject({...})] *)
| LoggerWarn                          (* [ctx.logger.warn(...)] *)
| LoggerError.                        (* [ctx.logger.error(...)] *)

(** What has happened so far: every call in order, with [true] when it
    returned and [false] when it threw. *)
Definition trace := list (call * bool).

(** The collaborators.  Whether a channel call succeeds and what the
    detection model answers may depend on everything that happened before;
    [None] is a call of [generateObject] that throws (timeout, malformed
    response, transport error). *)
Record world (K : Type) := {
  chan_ok : trace -> call -> bool;
  generated : trace -> str -> option (list (Item K))
}.

(** An [async] computation: it extends the trace and either returns a value
    or throws.  What was done before a throw stays done. *)
Inductive outcome (A : Type) := Returned (a : A) | Thrown.
Arguments Thrown {A}.

Definition M (A : Type) := trace -> outcome A * trace.

Definition ret {A} (a : A) : M A := fun h => (Returned a, h).

Definition bind {A B} (m : M A) (k : A -> M B) : M B :=
  fun h =>
    match m h with
    | (Returned a, h') => k a h'
    | (Thrown, h') => (Thrown, h')
    end.

Definition throw {A} : M A := fun h => (Thrown, h).

(** [try { body } catch { handler }] *)
Definition try_catch {A} (body handler : M A) : M A :=
  fun h =>
    match body h with
    | (Returned a, h') => (Returned a, h')
    | (Thrown, h') => handler h'
    end.

Declare Scope js_scope.
Delimit Scope js_scope with js.
Notation "x <- c1 ;; c2" := (bind c1 (fun x => c2))
  (at level 61, c1 at next level, right associativity) : js_scope.
Notation "c1 ;; c2" := (bind c1 (fun _ => c2))
  (at level 61, right associativity) : js_scope.
Open Scope js_scope.

Section Collaborators.

Variable K : Type.
Variable w : world K.

Definition perform (k : call) : M unit :=
  fun h =>
    let ok := chan_ok w h k in
    ((if ok then Returned tt else Thrown), h ++ [(k, ok)]).

Definition write (c : chan) (data : str) : M unit := perform (ChanWrite c data).
Definition close (c : chan) : M unit := perform (ChanClose c).

(** The logger does not throw. *)
Definition logger (k : call) : M unit := fun h => (Returned tt, h ++ [(k, true)]).

Definition generateObject (text : str) : M (list (Item K)) :=
  fun h =>
    match generated w h text with
    | Some items => (Returned items, h ++ [(GenerateObject text, true)])
    | None => (Thrown, h ++ [(GenerateObject text, false)])
    end.

End Collaborators.

(* ===================================================================== *)
(** ** The detector adapters *)
(* ===================================================================== *)

(** [pii-detection.ts] *)
Definition detectPII (w : world PiiType) (text : str) : M (list PiiItem) :=
  try_catch
    (result <- generateObject w text ;;
     ret result)
    (logger LoggerWarn ;;
     ret []).

(** [confidential-detection.ts] *)
Definition detectConfidential (w : world ConfidentialType) (text : str)
  : M (list ConfidentialItem) :=
  if negb (JS.truthy text) || negb (JS.truthy (JS.trim text)) then ret []
  else
    try_catch
      (result <- generateObject w text ;;
       ret result)
      (logger LoggerWarn ;;
       ret []).

(* ===================================================================== *)
(** ** The three [GuardrailStreamer] drivers *)
(* ===================================================================== *)

(** The three entry points are the same program up to the points listed
    below; [variant] names the file and each definition that follows says
    what that file has at the point. *)
Inductive variant :=
| confidential    (* detectConfidential, incremental emission, overlap 64 *)
| pii             (* detectPII, incremental emission, overlap 64 *)
| pii_sentence.   (* detectPII, size-or-sentence policy, overlap 32 *)

Definition K (v : variant) : Type :=
  match v with
  | confidential => ConfidentialType
  | pii | pii_sentence => PiiType
  end.

Definition CHAR_THRESHOLD : nat := 200.
Definition MIN_SENTENCE_CHARS : nat := 80.

Definition CARRY_TAIL_LENGTH (v : variant) : nat :=
  match v with
  | confidential | pii => 64
  | pii_sentence => 32
  end.

Definition detect (v : variant) : world (K v) -> str -> M (list (Item (K v))) :=
  match v with
  | confidential => detectConfidential
  | pii | pii_sentence => detectPII
  end.

Definition redact (v : variant) : str -> list (Item (K v)) -> str :=
  match v with
  | confidential => redactConfidential
  | pii | pii_sentence => redactPII
  end.

Definition type_name (v : variant) : K v -> str :=
  match v with
  | confidential => ConfidentialType_name
  | pii | pii_sentence => PiiType_name
  end.

Definition start_line (v : variant) : str :=
  match v with
  | confidential => lit "Starting confidentiality guardrail..." ++ [LF]
  | pii | pii_sentence => lit "Starting PII guardrail..." ++ [LF]
  end.

Definition checking_line (n : nat) : str :=
  lit "Checking " ++ JS.number n ++ lit " chars..." ++ [LF].

Definition found_line (v : variant) (items : list (Item (K v))) : str :=
  lit "Found " ++ JS.number (length items)
  ++ match v with
     | confidential => lit " confidential item(s): "
     | pii | pii_sentence => lit " PII item(s): "
     end
  ++ JS.join (lit ", ") (map (fun c => type_name v (type c)) items) ++ [LF].

Definition none_line (v : variant) : str :=
  match v with
  | confidential => lit "No confidential info found." ++ [LF]
  | pii | pii_sentence => lit "No PII found." ++ [LF]
  end.

Definition emitted_line (n : nat) : str :=
  lit "Emitted " ++ JS.number n ++ lit " chars." ++ [LF].

Definition final_check_line (n : nat) : str :=
  lit "Final check " ++ JS.number n ++ lit " chars..." ++ [LF].

Definition complete_line : str := lit "Stream complete." ++ [LF].
Definition error_line : str := lit "Error occurred; closing streams." ++ [LF].

Definition is_sentence_end (c : code_unit) : bool :=
  existsb (N.eqb c) (lit ".!?").

(** [SENTENCE_END.exec(s)] for [SENTENCE_END = /[.!?]\s/] (no flags, so
    every call searches from the start): the index of the first match, or
    [None] for [null]. *)
Fixpoint SENTENCE_END_exec_from (i : nat) (s : str) : option nat :=
  match s with
  | [] => None
  | c :: s' =>
      match s' with
      | [] => None
      | d :: _ =>
          if is_sentence_end c && JS.white_space d then Some i
          else SENTENCE_END_exec_from (S i) s'
      end
  end.

Definition SENTENCE_END_exec (s : str) : option nat := SENTENCE_END_exec_from 0 s.

(** The condition of the [if] that guards a flush in the [for await] loop. *)
Definition shouldFlush (v : variant) (pendingBuffer : str) : bool :=
  match v with
  | confidential | pii => CHAR_THRESHOLD <=? length pendingBuffer
  | pii_sentence =>
      let sentenceBoundary := SENTENCE_END_exec pendingBuffer in
      let shouldFlushBySize := CHAR_THRESHOLD <=? length pendingBuffer in
      let shouldFlushBySentence :=
        match sentenceBoundary with
        | Some _ => MIN_SENTENCE_CHARS <=? length pendingBuffer
        | None => false
        end in
      shouldFlushBySize || shouldFlushBySentence
  end.

(** The events of [aiStream.fullStream] the loop looks at. *)
Inductive event :=
| text_delta (text : str)
| finish
| other.

(** [aiStream.fullStream]: the events it yields, until it ends or throws
    ([streamText] throwing is a stream that throws at once). *)
Inductive fullStream :=
| done
| throws
| next (ev : event) (rest : fullStream).

(** The two variables of the closure. *)
Record locals := { pendingBuffer : str; carryTail : str }.

Section Driver.

Variable v : variant.
Variable w : world (K v).

(** The end of [validateAndFlush]: the two incremental drivers emit what
    lies beyond the overlap; the size-or-sentence driver writes the whole
    of [sanitized]. *)
Definition emit (carryTail sanitized : str) : M unit :=
  match v with
  | confidential | pii =>
      let toEmit := JS.slice (length carryTail) sanitized in
      if JS.truthy toEmit then
        write w mainStream toEmit ;;
        write w auditStream (emitted_line (length toEmit))
      else ret tt
  | pii_sentence => write w mainStream sanitized
  end.

(** [validateAndFlush(buffer)]; it reads [carryTail] and returns its new
    value. *)
Definition validateAndFlush (carryTail buffer : str) : M str :=
  let textToCheck := carryTail ++ buffer in
  write w auditStream (checking_line (length textToCheck)) ;;
  items <- detect v w textToCheck ;;
  sanitized <-
    (if 0 <? length items then
       write w auditStream (found_line v items) ;;
       ret (redact v textToCheck items)
     else
       write w auditStream (none_line v) ;;
       ret textToCheck) ;;
  emit carryTail sanitized ;;
  ret (JS.slice_last (CARRY_TAIL_LENGTH v) sanitized).

(** The body of the [for await] loop up to the test for [finish]. *)
Definition on_event (st : locals) (ev : event) : M locals :=
  match ev with
  | text_delta text =>
      let pendingBuffer := pendingBuffer st ++ text in
      if shouldFlush v pendingBuffer then
        carryTail <- validateAndFlush (carryTail st) pendingBuffer ;;
        ret {| pendingBuffer := []; carryTail := carryTail |}
      else ret {| pendingBuffer := pendingBuffer; carryTail := carryTail st |}
  | finish | other => ret st
  end.

Fixpoint for_await (s : fullStream) (st : locals) : M locals :=
  match s with
  | done => ret st
  | throws => throw
  | next ev rest =>
      st' <- on_event st ev ;;
      match ev with
      | finish => ret st'
      | text_delta _ | other => for_await rest st'
      end
  end.

(** [Flush any remaining buffer] *)
Definition drain (st : locals) : M locals :=
  if 0 <? length (pendingBuffer st) then
    write w auditStream (final_check_line (length (pendingBuffer st))) ;;
    carryTail <- validateAndFlush (carryTail st) (pendingBuffer st) ;;
    ret {| pendingBuffer := pendingBuffer st; carryTail := carryTail |}
  else ret st.

(** The [try] block of the background task; it returns the closure's
    variables as they are when the block ends. *)
Definition try_block (s : fullStream) : M locals :=
  write w auditStream (start_line v) ;;
  st <- for_await s {| pendingBuffer := []; carryTail := [] |} ;;
  st <- drain st ;;
  write w auditStream complete_line ;;
  close w mainStream ;;
  close w auditStream ;;
  ret st.

(** The [catch] block of the background task. *)
Definition catch_block : M unit :=
  logger LoggerError ;;
  match v with
  | confidential =>
      close w mainStream ;;
      close w auditStream
  | pii | pii_sentence =>
      write w auditStream error_line ;;
      try_catch (close w mainStream) (ret tt) ;;
      try_catch (close w auditStream) (ret tt)
  end.

(** The task handed to [ctx.waitUntil]. *)
Definition background_task (s : fullStream) : M unit :=
  try_catch (try_block s ;; ret tt) catch_block.

End Driver.

(* ===================================================================== *)
(** ** What a trace shows *)
(* ===================================================================== *)

Definition chan_eqb (c c' : chan) : bool :=
  match c, c' with
  | mainStream, mainStream | auditStream, auditStream => true
  | _, _ => false
  end.

(** The strings delivered to [c], in order. *)
Definition written (c : chan) (h : trace) : list str :=
  flat_map (fun e =>
              match e with
              | (ChanWrite c' data, true) => if chan_eqb c c' then [data] else []
              | _ => []
              end) h.

(** The content of the main stream. *)
Definition main_output (h : trace) : str := concat (written mainStream h).

(** The lines of the audit stream. *)
Definition audit_lines (h : trace) : list str := written auditStream h.

(** Was the call made (whether or not it succeeded)? *)
Definition attempted (k : call) (h : trace) : Prop :=
  exists ok, In (k, ok) h.

(** The deltas the loop consumes: those before the first [finish]. *)
Fixpoint deltas (s : fullStream) : list str :=
  match s with
  | done | throws => []
  | next (text_delta text) rest => text :: deltas rest
  | next finish _ => []
  | next other rest => deltas rest
  end.

(** Does the stream throw before the loop leaves it? *)
Fixpoint stream_throws (s : fullStream) : bool :=
  match s with
  | done => false
  | throws => true
  | next finish _ => false
  | next _ rest => stream_throws rest
  end.

(** Every channel call succeeds. *)
Definition channels_work {K} (w : world K) : Prop :=
  forall h k, chan_ok w h k = true.

(** Every call of the detection model throws. *)
Definition detector_always_fails {K} (w : world K) : Prop :=
  forall h text, generated w h text = None.

(* ===================================================================== *)
(** ** Vocabulary of the properties *)
(* ===================================================================== *)

(** [v] occurs in [t] as a substring. *)
Definition occurs (v t : str) : Prop := exists pre post, t = pre ++ v ++ post.

Fixpoint occursb (v t : str) : bool :=
  JS.starts_with v t
  || match t with
     | [] => false
     | _ :: t' => occursb v t'
     end.

(** The comparator of the sort in [redactConfidential], and the order it
    produces. *)
Definition by_length_desc (a b : ConfidentialItem) : Z :=
  (Z.of_nat (length (value b)) - Z.of_nat (length (value a)))%Z.

Definition longer_or_equal (a b : ConfidentialItem) : Prop :=
  length (value b) <= length (value a).

(** The item has a non-empty value. *)
Definition has_value {K} (i : Item K) : bool := JS.truthy (value i).

Definition open_bracket : code_unit := 91%N.
Definition close_bracket : code_unit := 93%N.

Definition bracket_free (s : str) : Prop :=
  ~ In open_bracket s /\ ~ In close_bracket s.

(** A marker is a bracketed word. *)
Definition bracketed (m : str) : Prop :=
  exists word, m = open_bracket :: word ++ [close_bracket].

(** A value that cannot be found in redacted text where a marker stands: it
    has no square bracket and does not occur in any of the [markers]. *)
Definition apart_from (markers : list str) (v : str) : Prop :=
  bracket_free v /\ forall m, In m markers -> ~ occurs v m.

Definition pii_markers : list str :=
  map pii_marker [email; phone; ssn; credit_card].

Definition confidential_markers : list str :=
  map REDACTION_MARKERS [financial; product; rnd; contact; strategy].

(** The span sets for which redaction is idempotent: every value is apart
    from the markers and, for [redactPII], not empty. *)
Definition pii_values_apart (S : list PiiItem) : Prop :=
  forall i, In i S -> value i <> [] /\ apart_from pii_markers (value i).

Definition confidential_values_apart (S : list ConfidentialItem) : Prop :=
  forall i, In i S -> value i <> [] -> apart_from confidential_markers (value i).

(** [apart_from], decided. *)
Definition apart_fromb (markers : list str) (v : str) : bool :=
  forallb (fun c => negb (N.eqb open_bracket c) && negb (N.eqb close_bracket c)) v
  && forallb (fun m => negb (occursb v m)) markers.

(** A computation only ever adds to the trace. *)
Definition extends {A} (m : M A) : Prop :=
  forall h, exists d, snd (m h) = h ++ d.

(** The calls a detector adapter makes: the model call and the logger. *)
Definition detector_call (e : call * bool) : Prop :=
  match fst e with
  | GenerateObject _ | LoggerWarn => True
  | ChanWrite _ _ | ChanClose _ | LoggerError => False
  end.

(** What a flush makes of the checked text, given the detector's answer. *)
Definition sanitize (v : variant) (textToCheck : str) (items : list (Item (K v)))
  : str :=
  if 0 <? length items then redact v textToCheck items else textToCheck.

(** The audit line that reports the detector's answer. *)
Definition verdict_line (v : variant) (items : list (Item (K v))) : str :=
  if 0 <? length items then found_line v items else none_line v.

(** The calls [emit] makes when the channels work. *)
Definition emission (v : variant) (carryTail sanitized : str) : trace :=
  match v with
  | confidential | pii =>
      let toEmit := JS.slice (length carryTail) sanitized in
      if JS.truthy toEmit
      then [ (ChanWrite mainStream toEmit, true);
             (ChanWrite auditStream (emitted_line (length toEmit)), true) ]
      else []
  | pii_sentence => [ (ChanWrite mainStream sanitized, true) ]
  end.

(** The successful write of the [Checking] line of a flush. *)
Definition checking (carryTail buffer : str) : call * bool :=
  (ChanWrite auditStream (checking_line (length (carryTail ++ buffer))), true).

(** The states of the closure's variables a session passes through: the
    initial one, the one after each event of the loop, the one after the
    final flush. *)
Inductive reachable (v : variant) (w : world (K v)) : locals -> trace -> Prop :=
| reach_start h :
    reachable v w {| pendingBuffer := []; carryTail := [] |} h
| reach_event st h ev st' h' :
    reachable v w st h ->
    on_event v w st ev h = (Returned st', h') ->
    reachable v w st' h'
| reach_drain st h st' h' :
    reachable v w st h ->
    drain v w st h = (Returned st', h') ->
    reachable v w st' h'.

(** The state a computation returns, [fallback] if it throws. *)
Definition returned_or {A} (fallback : A) (r : outcome A * trace) : A :=
  match fst r with
  | Returned a => a
  | Thrown => fallback
  end.

Definition returned {A} (r : outcome A * trace) : option A :=
  match fst r with
  | Returned a => Some a
  | Thrown => None
  end.

(** The closure's variables when the loop starts. *)
Definition initial : locals := {| pendingBuffer := []; carryTail := [] |}.

(** The buffer holds end-of-sentence punctuation followed by white space. *)
Definition sentence_terminator (s : str) : Prop :=
  exists pre c d post,
    s = pre ++ c :: d :: post /\ In c (lit ".!?") /\ JS.white_space d = true.

(** No line of the audit stream claims that an item was found. *)
Definition claims_found (line : str) : bool := JS.starts_with (lit "Found ") line.

Definition none_claimed (d : trace) : Prop :=
  Forall (fun line => claims_found line = false) (written auditStream d).

(** The detector reports nothing: it fails, or it answers with no span. *)
Definition finds_nothing {K} (w : world K) : Prop :=
  forall h text, generated w h text = None \/ generated w h text = Some [].

(* ===================================================================== *)
(** ** Worlds, streams and span lists of the examples *)
(* ===================================================================== *)

(** A detection model that always throws; one that answers from a script.
    The channels work in both. *)
Definition failing_detector (K : Type) : world K :=
  {| chan_ok := fun _ _ => true; generated := fun _ _ => None |}.

Definition scripted_detector {K} (answer : str -> list (Item K)) : world K :=
  {| chan_ok := fun _ _ => true; generated := fun _ text => Some (answer text) |}.

(** The concrete scenario of the specification. *)
Definition spec_scenario : fullStream :=
  next (text_delta (lit "My email is john@x.com and "))
    (next (text_delta (lit "my phone is 555-123-4567."))
       (next finish done)).

Definition mentions_EMAIL : list PiiItem :=
  [ {| type := email; value := lit "EMAIL" |} ].

Definition mentions_FINANCIAL : list ConfidentialItem :=
  [ {| type := financial; value := lit "FINANCIAL" |} ].

Definition contact_details : list PiiItem :=
  [ {| type := email; value := lit "john@x.com" |};
    {| type := phone; value := lit "555-123-4567" |} ].

Definition quarter_figures : list ConfidentialItem :=
  [ {| type := financial; value := lit "52%" |};
    {| type := product; value := [] |};
    {| type := financial; value := lit "$127M" |} ].

Definition phone_and_extension : list PiiItem :=
  [ {| type := phone; value := lit "555-1234" |};
    {| type := phone; value := lit "555-1234 ext 2" |} ].

Definition contact_and_extension : list ConfidentialItem :=
  [ {| type := contact; value := lit "555-1234" |};
    {| type := contact; value := lit "555-1234 ext 2" |} ].

Definition formula_span : list ConfidentialItem :=
  [ {| type := rnd; value := lit "EVA 60%, TPU 28%, aerogel 12%" |} ].

Definition long_sentence : str :=
  lit "Data privacy means keeping personal information safe from misuse and from exposure. ".

Definition two_letters : fullStream :=
  next (text_delta (lit "Hi")) (next finish done).

(** A world in which closing the main stream fails. *)
Definition main_close_fails (K : Type) : world K :=
  {| chan_ok := fun _ k =>
                  match k with
                  | ChanClose mainStream => false
                  | _ => true
                  end;
     generated := fun _ _ => None |}.

(** A world in which nothing can be written to the audit stream. *)
Definition audit_write_fails (K : Type) : world K :=
  {| chan_ok := fun _ k =>
                  match k with
                  | ChanWrite auditStream _ => false
                  | _ => true
                  end;
     generated := fun _ _ => None |}.

(** A generator that fails after its first delta. *)
Definition broken_stream : fullStream := next (text_delta (lit "Hello")) throws.

(** 200 code units that end a sentence. *)
Definition first_chunk : str := repeat 120%N 198 ++ lit ". ".

Definition two_chunks : fullStream :=
  next (text_delta first_chunk)
    (next (text_delta (lit "It matters.")) (next finish done)).

Definition two_sentences : fullStream :=
  next (text_delta long_sentence)
    (next (text_delta (lit "It matters.")) (next finish done)).

(** A detector that reports an address when it sees it whole. *)
Definition address_detector : world PiiType :=
  scripted_detector
    (fun text =>
       if occursb (lit "john@x.com") text
       then [ {| type := email; value := lit "john@x.com" |} ]
       else []).

Definition split_address : fullStream :=
  next (text_delta (repeat 120%N 190 ++ lit " mail john@"))
    (next (text_delta (lit "x.com today.")) (next finish done)).

(* ===================================================================== *)
(** ** Vocabulary of the further properties *)
(* ===================================================================== *)

(** The items have values of pairwise different lengths. *)
Definition distinct_lengths (items : list ConfidentialItem) : Prop :=
  NoDup (map (fun i => length (value i)) items).

Definition strictly_longer (a b : ConfidentialItem) : Prop :=
  length (value b) < length (value a).

(** A value with regular-expression syntax in it. *)
Definition priced_item : ConfidentialItem :=
  {| type := strategy; value := lit "$1.99 (+tax)" |}.

(** A call of the loop and the final flush: no close, no call of the error
    logger, and no write of the line that ends a session or of the line
    that reports an error. *)
Definition session_call (e : call * bool) : Prop :=
  match fst e with
  | ChanClose _ | LoggerError => False
  | ChanWrite auditStream line => line <> complete_line /\ line <> error_line
  | ChanWrite mainStream _ | GenerateObject _ | LoggerWarn => True
  end.

(** The calls that end a session that went well. *)
Definition closing_calls : trace :=
  [ (ChanWrite auditStream complete_line, true);
    (ChanClose mainStream, true);
    (ChanClose auditStream, true) ].

(** The calls of the [catch] block when the channels work. *)
Definition catch_calls (v : variant) : trace :=
  match v with
  | confidential =>
      [ (LoggerError, true);
        (ChanClose mainStream, true);
        (ChanClose auditStream, true) ]
  | pii | pii_sentence =>
      [ (LoggerError, true);
        (ChanWrite auditStream error_line, true);
        (ChanClose mainStream, true);
        (ChanClose auditStream, true) ]
  end.

(** The calls that failed are calls of the detection model. *)
Definition only_model_failures (d : trace) : Prop :=
  Forall (fun e => snd e = false -> exists text, fst e = GenerateObject text) d.

(** A computation that returns only if no channel call has failed. *)
Definition careful {A} (m : M A) : Prop :=
  forall h a h',
    m h = (Returned a, h') -> exists d, h' = h ++ d /\ only_model_failures d.

(** A stream of three short deltas and its end. *)
Definition short_answer : fullStream :=
  next (text_delta (lit "Mail "))
    (next other
       (next (text_delta (lit "john@x.com"))
          (next (text_delta (lit " now."))
             (next finish done)))).

(* ===================================================================== *)
(** * Properties *)
(* ===================================================================== *)

(** ** The scenarios of the specification *)

Example redactPII_spec_scenario :
  redactPII (lit "My email is john@x.com and my phone is 555-123-4567.")
    [ {| type := email; value := lit "john@x.com" |};
      {| type := phone; value := lit "555-123-4567" |} ]
  = lit "My email is [REDACTED:EMAIL] and my phone is [REDACTED:PHONE].".
Proof. reflexivity. Qed.

Example redactConfidential_example :
  redactConfidential (lit "Q3 revenue was $127M (52% margin).")
    [ {| type := financial; value := lit "52%" |};
      {| type := financial; value := lit "$127M" |} ]
  = lit "Q3 revenue was [REDACTED:FINANCIAL] ([REDACTED:FINANCIAL] margin).".
Proof. reflexivity. Qed.

Example spec_scenario_main_stream :
  main_output
    (snd (background_task pii (scripted_detector (fun _ => contact_details))
            spec_scenario []))
  = lit "My email is [REDACTED:EMAIL] and my phone is [REDACTED:PHONE]."
  /\
  audit_lines
    (snd (background_task pii (scripted_detector (fun _ => contact_details))
            spec_scenario []))
  = [ lit "Starting PII guardrail..." ++ [LF];
      lit "Final check 52 chars..." ++ [LF];
      lit "Checking 52 chars..." ++ [LF];
      lit "Found 2 PII item(s): email, phone" ++ [LF];
      lit "Emitted 62 chars." ++ [LF];
      lit "Stream complete." ++ [LF] ].
Proof. split; vm_compute; reflexivity. Qed.

(** ** The three drivers, written out *)

(** [validateAndFlush] as it stands in each of the three files. *)
Lemma validateAndFlush_confidential (w : world (K confidential)) carryTail buffer :
  validateAndFlush confidential w carryTail buffer =
  (let textToCheck := carryTail ++ buffer in
   write w auditStream
     (lit "Checking " ++ JS.number (length textToCheck) ++ lit " chars..." ++ [LF]) ;;
   confItems <- detectConfidential w textToCheck ;;
   sanitized <-
     (if 0 <? length confItems then
        write w auditStream
          (lit "Found " ++ JS.number (length confItems)
           ++ lit " confidential item(s): "
           ++ JS.join (lit ", ")
                (map (fun c => ConfidentialType_name (type c)) confItems)
           ++ [LF]) ;;
        ret (redactConfidential textToCheck confItems)
      else
        write w auditStream (lit "No confidential info found." ++ [LF]) ;;
        ret textToCheck) ;;
   (let toEmit := JS.slice (length carryTail) sanitized in
    if JS.truthy toEmit then
      write w mainStream toEmit ;;
      write w auditStream
        (lit "Emitted " ++ JS.number (length toEmit) ++ lit " chars." ++ [LF])
    else ret tt) ;;
   ret (JS.slice_last 64 sanitized)).
Proof. reflexivity. Qed.

Lemma validateAndFlush_pii (w : world (K pii)) carryTail buffer :
  validateAndFlush pii w carryTail buffer =
  (let textToCheck := carryTail ++ buffer in
   write w auditStream
     (lit "Checking " ++ JS.number (length textToCheck) ++ lit " chars..." ++ [LF]) ;;
   piiItems <- detectPII w textToCheck ;;
   sanitized <-
     (if 0 <? length piiItems then
        write w auditStream
          (lit "Found " ++ JS.number (length piiItems) ++ lit " PII item(s): "
           ++ JS.join (lit ", ") (map (fun p => PiiType_name (type p)) piiItems)
           ++ [LF]) ;;
        ret (redactPII textToCheck piiItems)
      else
        write w auditStream (lit "No PII found." ++ [LF]) ;;
        ret textToCheck) ;;
   (let toEmit := JS.slice (length carryTail) sanitized in
    if JS.truthy toEmit then
      write w mainStream toEmit ;;
      write w auditStream
        (lit "Emitted " ++ JS.number (length toEmit) ++ lit " chars." ++ [LF])
    else ret tt) ;;
   ret (JS.slice_last 64 sanitized)).
Proof. reflexivity. Qed.

Lemma validateAndFlush_pii_sentence (w : world (K pii_sentence)) carryTail buffer :
  validateAndFlush pii_sentence w carryTail buffer =
  (let textToCheck := carryTail ++ buffer in
   write w auditStream
     (lit "Checking " ++ JS.number (length textToCheck) ++ lit " chars..." ++ [LF]) ;;
   piiItems <- detectPII w textToCheck ;;
   sanitized <-
     (if 0 <? length piiItems then
        write w auditStream
          (lit "Found " ++ JS.number (length piiItems) ++ lit " PII item(s): "
           ++ JS.join (lit ", ") (map (fun p => PiiType_name (type p)) piiItems)
           ++ [LF]) ;;
        ret (redactPII textToCheck piiItems)
      else
        write w auditStream (lit "No PII found." ++ [LF]) ;;
        ret textToCheck) ;;
   write w mainStream sanitized ;;
   ret (JS.slice_last 32 sanitized)).
Proof. reflexivity. Qed.

(** ** Literal matching *)

Lemma starts_with_spec v t :
  JS.starts_with v t = true <-> exists post, t = v ++ post.
Proof.
  revert t; induction v as [|a v IH]; intros t; simpl.
  - split; [intros _; now exists t | reflexivity].
  - destruct t as [|b t]; simpl.
    + split; [discriminate | intros [post H]; discriminate].
    + rewrite andb_true_iff, N.eqb_eq, IH. split.
      * intros [-> [post ->]]. now exists post.
      * intros [post H]. injection H as -> ->. split; [reflexivity | now exists post].
Qed.

Lemma occursb_spec v t : occursb v t = true <-> occurs v t.
Proof.
  induction t as [|c t IH]; simpl.
  - rewrite orb_false_r, starts_with_spec. split.
    + intros [post H]. now exists [], post.
    + intros [pre [post H]]. destruct pre; simpl in H.
      * now exists post.
      * discriminate.
  - rewrite orb_true_iff, starts_with_spec, IH. split.
    + intros [[post H] | [pre [post H]]].
      * now exists [], post.
      * exists (c :: pre), post. simpl. now rewrite H.
    + intros [pre [post H]]. destruct pre as [|c' pre]; simpl in H.
      * left. now exists post.
      * right. injection H as _ H. now exists pre, post.
Qed.

Lemma occurs_cons v c t : occurs v t -> occurs v (c :: t).
Proof. intros [pre [post ->]]. now exists (c :: pre), post. Qed.

(** Text without an occurrence of [v] is left as it is. *)
Lemma replace_scan_clean v m t :
  ~ occurs v t -> JS.replace_scan v m 0 t = t.
Proof.
  induction t as [|c t IH]; intros Hno; [reflexivity|].
  cbn [JS.replace_scan].
  destruct (JS.starts_with v (c :: t)) eqn:E.
  - exfalso. apply Hno. apply starts_with_spec in E as [post E].
    exists [], post. exact E.
  - f_equal. apply IH. intros H. apply Hno. now apply occurs_cons.
Qed.

Lemma replaceAll_clean t v m : ~ occurs v t -> JS.replaceAll t v m = t.
Proof.
  destruct v as [|a v]; intros Hno.
  - exfalso. apply Hno. now exists [], t.
  - now apply replace_scan_clean.
Qed.

(** Escaping makes the pattern match the value literally. *)
Lemma syntax_character_backslash : JS.syntax_character JS.backslash = true.
Proof. reflexivity. Qed.

Lemma RegExp_escape v : JS.RegExp (JS.escape v) = v.
Proof.
  induction v as [|c v IH]; [reflexivity|].
  unfold JS.escape in *. cbn [flat_map].
  destruct (JS.syntax_character c) eqn:E.
  - cbn [app JS.RegExp]. rewrite N.eqb_refl. now rewrite IH.
  - cbn [app JS.RegExp].
    destruct (N.eqb c JS.backslash) eqn:Eb.
    + apply N.eqb_eq in Eb. subst c.
      rewrite syntax_character_backslash in E. discriminate.
    + now rewrite IH.
Qed.

Lemma redactConfidential_step_literal text item :
  redactConfidential_step text item =
  if negb (JS.truthy (value item)) then text
  else JS.replace_scan (value item) (REDACTION_MARKERS (type item)) 0 text.
Proof.
  unfold redactConfidential_step, JS.replace. now rewrite RegExp_escape.
Qed.

(** ** The order in which [redactConfidential] replaces *)

Lemma sort_insert_perm {A} (cmp : A -> A -> Z) a l :
  Permutation (a :: l) (JS.sort_insert cmp a l).
Proof.
  induction l as [|b l IH]; simpl; [reflexivity|].
  destruct (cmp a b <=? 0)%Z; [reflexivity|].
  rewrite perm_swap. now constructor.
Qed.

Lemma sort_perm {A} (cmp : A -> A -> Z) l : Permutation l (JS.sort cmp l).
Proof.
  induction l as [|a l IH]; simpl; [constructor|].
  rewrite <- sort_insert_perm. now constructor.
Qed.

Lemma sort_insert_sorted a l :
  Sorted longer_or_equal l ->
  Sorted longer_or_equal (JS.sort_insert by_length_desc a l).
Proof.
  induction 1 as [|b l Hs IH Hhd]; simpl.
  - repeat constructor.
  - destruct (by_length_desc a b <=? 0)%Z eqn:E.
    + constructor; [now constructor|]. constructor.
      apply Z.leb_le in E. unfold by_length_desc in E. unfold longer_or_equal. lia.
    + constructor; [exact IH|].
      apply Z.leb_gt in E. unfold by_length_desc in E.
      destruct l as [|c l]; simpl.
      * constructor. unfold longer_or_equal. lia.
      * destruct (by_length_desc a c <=? 0)%Z.
        -- constructor. unfold longer_or_equal. lia.
        -- constructor. now inversion Hhd.
Qed.

Lemma sort_sorted l : Sorted longer_or_equal (JS.sort by_length_desc l).
Proof.
  induction l as [|a l IH]; simpl; [constructor|]. now apply sort_insert_sorted.
Qed.

(** [redactConfidential] replaces the items in an order that is a
    rearrangement of the list by non-increasing length of the value. *)
Lemma redactConfidential_longest_first text items :
  exists sorted,
    Permutation items sorted /\
    Sorted longer_or_equal sorted /\
    redactConfidential text items = fold_left redactConfidential_step sorted text.
Proof.
  exists (JS.sort by_length_desc items). split; [apply sort_perm|].
  split; [apply sort_sorted|].
  unfold redactConfidential. destruct items; reflexivity.
Qed.

Lemma strict_substring_shorter (short long : str) :
  occurs short long -> short <> long -> length short < length long.
Proof.
  intros (pre & post & ->) Hne. rewrite !length_app.
  destruct pre as [|x pre]; [|simpl; lia].
  destruct post as [|y post]; [|simpl; lia].
  elim Hne. cbn [app]. now rewrite app_nil_r.
Qed.

(** Of two items of which one value is a strict substring of the other,
    [redactConfidential] replaces the longer value first, in whichever
    order the detector has returned them. *)
Lemma redactConfidential_longer_of_two_first text (a b : ConfidentialItem) :
  occurs (value b) (value a) -> value b <> value a ->
  redactConfidential text [a; b]
    = redactConfidential_step (redactConfidential_step text a) b
  /\ redactConfidential text [b; a]
    = redactConfidential_step (redactConfidential_step text a) b.
Proof.
  intros Hocc Hne. pose proof (strict_substring_shorter Hocc Hne) as Hlt.
  unfold redactConfidential. cbn [length Nat.eqb JS.sort JS.sort_insert].
  destruct (Z.leb_spec (Z.of_nat (length (value b)) - Z.of_nat (length (value a))) 0);
    [|lia].
  destruct (Z.leb_spec (Z.of_nat (length (value a)) - Z.of_nat (length (value b))) 0);
    [lia|].
  split; reflexivity.
Qed.

(** ** Empty values in [redactConfidential] *)

Lemma has_value_false {K} (i : Item K) : has_value i = false -> value i = [].
Proof. unfold has_value. destruct (value i); [reflexivity | discriminate]. Qed.

Lemma has_value_true {K} (i : Item K) : has_value i = true -> 0 < length (value i).
Proof. unfold has_value. destruct (value i); [discriminate | simpl; lia]. Qed.

Lemma sort_insert_before_empties a X Y :
  has_value a = true ->
  (forall b, In b Y -> value b = []) ->
  JS.sort_insert by_length_desc a (X ++ Y) = JS.sort_insert by_length_desc a X ++ Y.
Proof.
  intros Ha HY. induction X as [|x X IH]; simpl.
  - destruct Y as [|b Y]; [reflexivity|]. cbn [app JS.sort_insert].
    assert (E : (by_length_desc a b <=? 0)%Z = true).
    { apply Z.leb_le. unfold by_length_desc.
      rewrite (HY b (or_introl eq_refl)). simpl. lia. }
    now rewrite E.
  - destruct (by_length_desc a x <=? 0)%Z; [reflexivity|]. now rewrite IH.
Qed.

Lemma sort_insert_empty a X Y :
  value a = [] ->
  (forall x, In x X -> has_value x = true) ->
  (forall b, In b Y -> value b = []) ->
  JS.sort_insert by_length_desc a (X ++ Y) = X ++ a :: Y.
Proof.
  intros Ha HX HY. induction X as [|x X IH]; simpl.
  - destruct Y as [|b Y]; [reflexivity|]. cbn [app JS.sort_insert].
    unfold by_length_desc. rewrite Ha, (HY b (or_introl eq_refl)). reflexivity.
  - pose proof (has_value_true x (HX x (or_introl eq_refl))) as Hx.
    assert (E : (by_length_desc a x <=? 0)%Z = false).
    { apply Z.leb_gt. unfold by_length_desc. rewrite Ha. simpl. lia. }
    rewrite E, IH; [reflexivity|]. intros y Hy. apply HX. now right.
Qed.

(** Items with an empty value are sorted behind all the others. *)
Lemma sort_empties_last (items : list ConfidentialItem) :
  JS.sort by_length_desc items =
  JS.sort by_length_desc (filter has_value items)
  ++ filter (fun i => negb (has_value i)) items.
Proof.
  induction items as [|a l IH]; [reflexivity|].
  assert (HY : forall b, In b (filter (fun i => negb (has_value i)) l) -> value b = []).
  { intros b Hb. apply filter_In in Hb as [_ Hb]. apply has_value_false.
    now destruct (has_value b). }
  cbn [JS.sort filter]. rewrite IH.
  destruct (has_value a) eqn:Ea; cbn [negb JS.sort].
  - now apply sort_insert_before_empties.
  - apply sort_insert_empty; [now apply has_value_false | | exact HY].
    intros x Hx.
    apply (Permutation_in x (Permutation_sym (sort_perm by_length_desc _))) in Hx.
    now apply filter_In in Hx as [_ Hx].
Qed.

Lemma fold_left_skipped text (l : list ConfidentialItem) :
  (forall i, In i l -> value i = []) ->
  fold_left redactConfidential_step l text = text.
Proof.
  induction l as [|a l IH]; intros H; [reflexivity|]. simpl.
  unfold redactConfidential_step at 2. rewrite (H a (or_introl eq_refl)). simpl.
  apply IH. intros i Hi. apply H. now right.
Qed.

(** [redactConfidential] skips the items whose value is empty: the result is
    the one for the list without them. *)
Lemma redactConfidential_skips_empty text items :
  redactConfidential text items = redactConfidential text (filter has_value items).
Proof.
  unfold redactConfidential. fold by_length_desc.
  destruct items as [|a l]; [reflexivity|].
  cbn [length Nat.eqb]. rewrite sort_empties_last, fold_left_app.
  rewrite fold_left_skipped.
  - destruct (filter has_value (a :: l)); reflexivity.
  - intros i Hi. apply filter_In in Hi as [_ Hi]. apply has_value_false.
    now destruct (has_value i).
Qed.

(** ** Redaction of text that holds none of the values *)

Lemma redactPII_clean U (S : list PiiItem) :
  (forall i, In i S -> ~ occurs (value i) U) -> redactPII U S = U.
Proof.
  unfold redactPII. destruct (Nat.eqb (length S) 0); [reflexivity|].
  induction S as [|a S IH]; intros H; [reflexivity|]. simpl.
  unfold redactPII_step at 2.
  rewrite replaceAll_clean by (apply H; now left).
  apply IH. intros i Hi. apply H. now right.
Qed.

Lemma fold_left_redactConfidential_clean U (l : list ConfidentialItem) :
  (forall i, In i l -> value i <> [] -> ~ occurs (value i) U) ->
  fold_left redactConfidential_step l U = U.
Proof.
  induction l as [|a l IH]; intros H; [reflexivity|]. simpl.
  rewrite redactConfidential_step_literal.
  destruct (value a) as [|c r] eqn:Ea; simpl.
  - apply IH. intros i Hi. apply H. now right.
  - rewrite replace_scan_clean.
    + apply IH. intros i Hi. apply H. now right.
    + rewrite <- Ea. apply H; [now left | now rewrite Ea].
Qed.

Lemma redactConfidential_clean U (S : list ConfidentialItem) :
  (forall i, In i S -> value i <> [] -> ~ occurs (value i) U) ->
  redactConfidential U S = U.
Proof.
  intros H. unfold redactConfidential.
  destruct (Nat.eqb (length S) 0); [reflexivity|].
  apply fold_left_redactConfidential_clean. intros i Hi.
  apply H. exact (Permutation_in i (Permutation_sym (sort_perm _ S)) Hi).
Qed.

(** ** Values that cannot meet a marker *)

Lemma pii_marker_listed k : In (pii_marker k) pii_markers /\ bracketed (pii_marker k).
Proof.
  split.
  - destruct k; simpl; auto.
  - exists (removelast (tl (pii_marker k))). now destruct k.
Qed.

Lemma REDACTION_MARKERS_listed k :
  In (REDACTION_MARKERS k) confidential_markers /\ bracketed (REDACTION_MARKERS k).
Proof.
  split.
  - destruct k; simpl; auto 6.
  - exists (removelast (tl (REDACTION_MARKERS k))). now destruct k.
Qed.

Lemma occurs_app_l w a b : occurs w a -> occurs w (a ++ b).
Proof.
  intros (pre & post & ->). exists pre, (post ++ b). now rewrite <- !app_assoc.
Qed.

Lemma occurs_app_r w a b : occurs w b -> occurs w (a ++ b).
Proof.
  intros (pre & post & ->). exists (a ++ pre), post. now rewrite <- !app_assoc.
Qed.

(** An occurrence of [w] in [a ++ c :: b] does not pass over [c] when [c] is
    not in [w]. *)
Lemma occurs_app_sep w a c b :
  ~ In c w -> occurs w (a ++ c :: b) -> occurs w a \/ occurs w b.
Proof.
  intros Hc (pre & post & H).
  apply app_eq_app in H as [l [[Ha Hl] | [Hpre Hl]]].
  - apply app_eq_app in Hl as [l2 [[Hw Hp] | [Hl2 Hp]]].
    + left. destruct l2 as [|x l2]; simpl in Hp.
      * exists pre, []. rewrite Ha, Hw. now rewrite !app_nil_r.
      * injection Hp as -> _. elim Hc. rewrite Hw. apply in_or_app. right. now left.
    + left. exists pre, l2. now rewrite Ha, Hl2.
  - destruct l as [|x l]; simpl in Hl.
    + destruct w as [|y w].
      * left. exists a, []. now rewrite app_nil_r.
      * injection Hl as -> _. elim Hc. now left.
    + injection Hl as _ ->. right. now exists l, post.
Qed.

Lemma occurs_around_marker w a m b :
  bracket_free w -> bracketed m ->
  occurs w (a ++ m ++ b) -> occurs w a \/ occurs w m \/ occurs w b.
Proof.
  intros [Ho Hc] [word ->] H.
  cbn [app] in H. apply occurs_app_sep in H as [H | H]; [now left | | exact Ho].
  rewrite <- app_assoc in H. cbn [app] in H.
  apply occurs_app_sep in H as [H | H]; [| now right; right | exact Hc].
  right; left. apply (occurs_app_r [open_bracket]). now apply occurs_app_l.
Qed.

Lemma replace_scan_skip v m k t :
  JS.replace_scan v m k t = JS.replace_scan v m 0 (skipn k t).
Proof.
  revert k. induction t as [|c t IH]; intros k.
  - now destruct k.
  - destruct k as [|k]; [reflexivity|]. cbn [JS.replace_scan skipn]. apply IH.
Qed.

(** The scan either finds nothing, or replaces the first occurrence and goes
    on behind it. *)
Lemma replace_scan_decompose v m t :
  v <> [] ->
  (~ occurs v t /\ JS.replace_scan v m 0 t = t)
  \/ exists a b,
      t = a ++ v ++ b /\ ~ occurs v a /\
      JS.replace_scan v m 0 t = a ++ m ++ JS.replace_scan v m 0 b.
Proof.
  intros Hv. induction t as [|c t IH].
  - left. split; [|reflexivity]. intros (pre & post & H).
    destruct pre; [destruct v; [now elim Hv | discriminate] | discriminate].
  - cbn [JS.replace_scan]. destruct (JS.starts_with v (c :: t)) eqn:E.
    + right. apply starts_with_spec in E as [b E].
      exists [], b. split; [exact E|]. split.
      * intros (pre & post & H).
        destruct pre; [destruct v; [now elim Hv | discriminate] | discriminate].
      * rewrite replace_scan_skip. cbn [app]. do 2 f_equal.
        destruct v as [|x v]; [now elim Hv|]. injection E as _ ->.
        replace (length (x :: v) - 1) with (length v) by (simpl; lia).
        now rewrite skipn_app, skipn_all, Nat.sub_diag.
    + destruct IH as [[Hno Hid] | (a & b & Ht & Hno & Hr)].
      * left. split; [|now rewrite Hid].
        intros (pre & post & H). destruct pre as [|x pre]; simpl in H.
        -- assert (JS.starts_with v (c :: t) = true)
             by (apply starts_with_spec; now exists post).
           congruence.
        -- injection H as _ H. apply Hno. now exists pre, post.
      * right. exists (c :: a), b. split; [now rewrite Ht|]. split.
        -- intros (pre & post & H). destruct pre as [|x pre]; simpl in H.
           ++ assert (JS.starts_with v (c :: t) = true).
              { apply starts_with_spec. exists (post ++ v ++ b).
                rewrite Ht. change (c :: a ++ v ++ b) with ((c :: a) ++ v ++ b).
                rewrite H. now rewrite <- app_assoc. }
              congruence.
           ++ injection H as _ H. apply Hno. now exists pre, post.
        -- now rewrite Hr.
Qed.

Lemma replace_scan_keeps_absent w v m t :
  v <> [] -> bracket_free w -> bracketed m -> ~ occurs w m ->
  ~ occurs w t -> ~ occurs w (JS.replace_scan v m 0 t).
Proof.
  intros Hv Hw Hm Hwm.
  remember (length t) as n eqn:Hn. revert t Hn.
  induction n as [n IH] using lt_wf_ind. intros t Hn Hno.
  destruct (replace_scan_decompose m t Hv) as [[_ Hid] | (a & b & Ht & _ & Hr)].
  - now rewrite Hid.
  - rewrite Hr. intros H.
    apply occurs_around_marker in H as [H | [H | H]]; try assumption.
    + apply Hno. rewrite Ht. now apply occurs_app_l.
    + contradiction.
    + revert H. apply (IH (length b)); [|reflexivity|].
      * subst n t. rewrite !length_app. destruct v; [now elim Hv | simpl; lia].
      * intros H. apply Hno. rewrite Ht. now apply occurs_app_r, occurs_app_r.
Qed.

Lemma replace_scan_removes v m t :
  v <> [] -> bracket_free v -> bracketed m -> ~ occurs v m ->
  ~ occurs v (JS.replace_scan v m 0 t).
Proof.
  intros Hv Hw Hm Hvm.
  remember (length t) as n eqn:Hn. revert t Hn.
  induction n as [n IH] using lt_wf_ind. intros t Hn.
  destruct (replace_scan_decompose m t Hv) as [[Hno Hid] | (a & b & Ht & Hno & Hr)].
  - now rewrite Hid.
  - rewrite Hr. intros H.
    apply occurs_around_marker in H as [H | [H | H]]; try assumption; try contradiction.
    revert H. apply (IH (length b)); [|reflexivity].
    subst n t. rewrite !length_app. destruct v; [now elim Hv | simpl; lia].
Qed.

Lemma replaceAll_nonempty t v m :
  v <> [] -> JS.replaceAll t v m = JS.replace_scan v m 0 t.
Proof. destruct v; [now intros H; elim H | reflexivity]. Qed.

Lemma fold_redactPII_absent (l : list PiiItem) :
  pii_values_apart l ->
  forall w text,
    apart_from pii_markers w ->
    ~ occurs w text \/ (exists i, In i l /\ value i = w) ->
    ~ occurs w (fold_left redactPII_step l text).
Proof.
  induction l as [|a l IH]; intros Hl w text Hw H.
  - destruct H as [H | (i & [] & _)]. exact H.
  - cbn [fold_left].
    destruct (Hl a (or_introl eq_refl)) as [Hne [Hbf Hm]].
    destruct (pii_marker_listed (type a)) as [Hin Hshape].
    apply IH; [intros i Hi; apply Hl; now right | exact Hw |].
    unfold redactPII_step. rewrite replaceAll_nonempty by exact Hne.
    destruct H as [H | (i & [<- | Hi] & Hv)].
    + left. apply replace_scan_keeps_absent; try assumption.
      * apply Hw.
      * apply Hw. exact Hin.
    + left. subst w. apply replace_scan_removes; try assumption.
      apply Hm. exact Hin.
    + right. now exists i.
Qed.

Lemma fold_redactConfidential_absent (l : list ConfidentialItem) :
  confidential_values_apart l ->
  forall w text,
    w <> [] ->
    apart_from confidential_markers w ->
    ~ occurs w text \/ (exists i, In i l /\ value i = w) ->
    ~ occurs w (fold_left redactConfidential_step l text).
Proof.
  induction l as [|a l IH]; intros Hl w text Hne Hw H.
  - destruct H as [H | (i & [] & _)]. exact H.
  - cbn [fold_left].
    destruct (REDACTION_MARKERS_listed (type a)) as [Hin Hshape].
    apply IH; [intros i Hi; apply Hl; now right | exact Hne | exact Hw |].
    rewrite redactConfidential_step_literal.
    destruct (value a) as [|c r] eqn:Ea; cbn [JS.truthy negb].
    + destruct H as [H | (i & [<- | Hi] & Hv)].
      * now left.
      * rewrite Ea in Hv. now elim Hne.
      * right. now exists i.
    + rewrite <- Ea.
      assert (Hva : value a <> []) by (rewrite Ea; discriminate).
      destruct H as [H | (i & [<- | Hi] & Hv)].
      * left. apply replace_scan_keeps_absent; try assumption.
        -- apply Hw.
        -- apply Hw. exact Hin.
      * left. subst w. destruct (Hl a (or_introl eq_refl) Hva) as [Hbf Hm].
        apply replace_scan_removes; try assumption. apply Hm. exact Hin.
      * right. now exists i.
Qed.

(** Redacted text holds none of the values that are apart from the
    markers. *)
Lemma redactPII_removes_values T (S : list PiiItem) :
  pii_values_apart S ->
  forall i, In i S -> ~ occurs (value i) (redactPII T S).
Proof.
  intros HS i Hi. unfold redactPII.
  destruct S as [|a S]; [now elim Hi|]. cbn [length Nat.eqb].
  apply fold_redactPII_absent; [exact HS | apply (HS i Hi) |].
  right. now exists i.
Qed.

Lemma redactConfidential_removes_values T (S : list ConfidentialItem) :
  confidential_values_apart S ->
  forall i, In i S -> value i <> [] -> ~ occurs (value i) (redactConfidential T S).
Proof.
  intros HS i Hi Hne. unfold redactConfidential.
  destruct S as [|a S]; [now elim Hi|]. cbn [length Nat.eqb].
  apply fold_redactConfidential_absent.
  - intros j Hj. apply HS.
    exact (Permutation_in j (Permutation_sym (sort_perm _ (a :: S))) Hj).
  - exact Hne.
  - now apply HS.
  - right. exists i. split; [|reflexivity].
    exact (Permutation_in i (sort_perm _ (a :: S)) Hi).
Qed.

(** ** Idempotence of redaction *)

(** C3, as stated, fails: a value that occurs in its own marker is found
    again in the redacted text.  *)
Lemma redact_twice_differs :
  redactPII (redactPII (lit "Send it by EMAIL.") mentions_EMAIL) mentions_EMAIL
    <> redactPII (lit "Send it by EMAIL.") mentions_EMAIL
  /\ redactConfidential
       (redactConfidential (lit "The FINANCIAL report.") mentions_FINANCIAL)
       mentions_FINANCIAL
    <> redactConfidential (lit "The FINANCIAL report.") mentions_FINANCIAL.
Proof. split; intros H; vm_compute in H; discriminate H. Qed.

(** A value with a square bracket can meet a marker at its edge. *)
Example redact_twice_meets_marker_edge :
  let S := [ {| type := email; value := lit "x[" |} ] : list PiiItem in
  redactPII (lit "xx[") S = lit "x[REDACTED:EMAIL]"
  /\ redactPII (redactPII (lit "xx[") S) S = lit "[REDACTED:EMAIL]REDACTED:EMAIL]".
Proof. split; reflexivity. Qed.

Example redact_twice_nests_markers :
  redactPII (redactPII (lit "Send it by EMAIL.") mentions_EMAIL) mentions_EMAIL
  = lit "Send it by [REDACTED:[REDACTED:EMAIL]].".
Proof. reflexivity. Qed.

(** C3, amended: redaction is idempotent given a fixed span set whose values
    have no square bracket and do not occur in a redaction marker, and, for
    [redactPII], are not empty ([redactConfidential] skips empty values):
    for every text [T] and every such span list [S],
    [redact (redact T S) S = redact T S], for both redaction functions. *)
Theorem redact_idempotent :
  (forall (T : str) (S : list PiiItem),
      pii_values_apart S ->
      redactPII (redactPII T S) S = redactPII T S)
  /\
  (forall (T : str) (S : list ConfidentialItem),
      confidential_values_apart S ->
      redactConfidential (redactConfidential T S) S = redactConfidential T S).
Proof.
  split; intros T S HS.
  - apply redactPII_clean. now apply redactPII_removes_values.
  - apply redactConfidential_clean. now apply redactConfidential_removes_values.
Qed.

Lemma apart_fromb_spec markers v :
  apart_fromb markers v = true -> apart_from markers v.
Proof.
  unfold apart_fromb. rewrite andb_true_iff, !forallb_forall. intros [Hb Hm].
  split; [split|].
  - intros Hin. apply Hb in Hin. now rewrite N.eqb_refl in Hin.
  - intros Hin. apply Hb in Hin. rewrite N.eqb_refl, andb_false_r in Hin. discriminate.
  - intros m Hin Hocc. apply Hm in Hin. apply occursb_spec in Hocc.
    rewrite Hocc in Hin. discriminate.
Qed.

Lemma redact_idempotent_witness :
  let T1 := lit "My email is john@x.com and my phone is 555-123-4567." in
  let T2 := lit "Q3 revenue was $127M (52% margin)." in
  (pii_values_apart contact_details
   /\ redactPII (redactPII T1 contact_details) contact_details
      = redactPII T1 contact_details)
  /\
  (confidential_values_apart quarter_figures
   /\ redactConfidential (redactConfidential T2 quarter_figures) quarter_figures
      = redactConfidential T2 quarter_figures).
Proof.
  intros T1 T2.
  assert (H1 : pii_values_apart contact_details).
  { intros i [<- | [<- | []]];
      (split; [discriminate | apply apart_fromb_spec; reflexivity]). }
  assert (H2 : confidential_values_apart quarter_figures).
  { intros i [<- | [<- | [<- | []]]] Hne;
      try (apply apart_fromb_spec; reflexivity).
    now elim Hne. }
  split; (split; [assumption|]).
  - exact (proj1 redact_idempotent T1 contact_details H1).
  - exact (proj2 redact_idempotent T2 quarter_figures H2).
Defined.

(** ** Longest value first *)

(** C4 at its failing input: [redactPII] replaces in the order of the list,
    so the shorter value is replaced first and the rest of the longer one
    stays in the text; [redactConfidential] sorts and replaces the longer
    value whole. *)
Theorem redactPII_replaces_in_list_order :
  redactPII (lit "Call 555-1234 ext 2 today.") phone_and_extension
    = lit "Call [REDACTED:PHONE] ext 2 today."
  /\ redactConfidential (lit "Call 555-1234 ext 2 today.") contact_and_extension
    = lit "Call [REDACTED:CONTACT] today.".
Proof. split; reflexivity. Qed.

(** ** Empty values *)

(** C5 at its failing input: [redactPII] hands the empty value to
    [replaceAll], which matches it at every position; [redactConfidential]
    skips it. *)
Theorem redactPII_empty_value_matches_everywhere :
  redactPII (lit "Hi") [ {| type := email; value := [] |} ]
    = lit "[REDACTED:EMAIL]H[REDACTED:EMAIL]i[REDACTED:EMAIL]"
  /\ redactPII (lit "Hi") [] = lit "Hi"
  /\ redactConfidential (lit "Hi") [ {| type := contact; value := [] |} ]
    = lit "Hi".
Proof. repeat split; reflexivity. Qed.

(** ** Reasoning about [M] *)

Lemma bind_returned {A B} (m : M A) (k : A -> M B) h a h1 :
  m h = (Returned a, h1) -> bind m k h = k a h1.
Proof. unfold bind. now intros ->. Qed.

Lemma bind_inv {A B} (m : M A) (k : A -> M B) h b h' :
  bind m k h = (Returned b, h') ->
  exists a h1, m h = (Returned a, h1) /\ k a h1 = (Returned b, h').
Proof.
  unfold bind. destruct (m h) as [[a|] h1]; intros H.
  - now exists a, h1.
  - discriminate.
Qed.

Lemma ret_inv {A} (a b : A) h h' : ret a h = (Returned b, h') -> a = b /\ h = h'.
Proof. unfold ret. intros H. now injection H. Qed.

Lemma extends_ret {A} (a : A) : extends (ret a).
Proof. intros h. exists []. simpl. now rewrite app_nil_r. Qed.

Lemma extends_throw {A} : extends (@throw A).
Proof. intros h. exists []. simpl. now rewrite app_nil_r. Qed.

Lemma extends_bind {A B} (m : M A) (k : A -> M B) :
  extends m -> (forall a, extends (k a)) -> extends (bind m k).
Proof.
  intros Hm Hk h. unfold bind. destruct (Hm h) as [d Hd].
  destruct (m h) as [[a|] h1]; simpl in Hd; subst h1.
  - destruct (Hk a (h ++ d)) as [d' Hd']. exists (d ++ d').
    now rewrite Hd', app_assoc.
  - now exists d.
Qed.

Lemma extends_try_catch {A} (m k : M A) :
  extends m -> extends k -> extends (try_catch m k).
Proof.
  intros Hm Hk h. unfold try_catch. destruct (Hm h) as [d Hd].
  destruct (m h) as [[a|] h1]; simpl in Hd; subst h1.
  - now exists d.
  - destruct (Hk (h ++ d)) as [d' Hd']. exists (d ++ d').
    now rewrite Hd', app_assoc.
Qed.

Lemma extends_perform {K} (w : world K) k : extends (perform w k).
Proof. intros h. now exists [(k, chan_ok w h k)]. Qed.

Lemma extends_logger k : extends (logger k).
Proof. intros h. now exists [(k, true)]. Qed.

Lemma extends_generateObject {K} (w : world K) text : extends (generateObject w text).
Proof.
  intros h. unfold generateObject. destruct (generated w h text).
  - now exists [(GenerateObject text, true)].
  - now exists [(GenerateObject text, false)].
Qed.

Lemma extends_if {A} (b : bool) (m1 m2 : M A) :
  extends m1 -> extends m2 -> extends (if b then m1 else m2).
Proof. now destruct b. Qed.

Create HintDb extends.

#[local] Hint Resolve extends_ret extends_throw extends_bind extends_try_catch
  extends_perform extends_logger extends_generateObject extends_if : extends.

Lemma perform_works {K} (w : world K) k h :
  channels_work w -> perform w k h = (Returned tt, h ++ [(k, true)]).
Proof. intros Hw. unfold perform. now rewrite Hw. Qed.

Lemma written_app c h1 h2 : written c (h1 ++ h2) = written c h1 ++ written c h2.
Proof. unfold written. apply flat_map_app. Qed.

Lemma main_output_app h1 h2 : main_output (h1 ++ h2) = main_output h1 ++ main_output h2.
Proof. unfold main_output. now rewrite written_app, concat_app. Qed.

(** ** The detector adapters never throw *)

Lemma detector_calls_written c d : Forall detector_call d -> written c d = [].
Proof.
  induction 1 as [|[k ok] d Hk _ IH]; [reflexivity|].
  unfold written in *. cbn [flat_map]. rewrite IH.
  destruct k; try reflexivity; now elim Hk.
Qed.

Lemma detectPII_returns w text h :
  exists items d,
    detectPII w text h = (Returned items, h ++ d) /\ Forall detector_call d /\
    (generated w h text = None -> items = []) /\
    (forall found, generated w h text = Some found -> items = found).
Proof.
  unfold detectPII, try_catch, bind, generateObject, logger, ret.
  destruct (generated w h text) as [found|].
  - exists found, [(GenerateObject text, true)]. repeat split.
    + repeat constructor.
    + discriminate.
    + intros f Hf. now injection Hf.
  - exists [], [(GenerateObject text, false); (LoggerWarn, true)]. repeat split.
    + now rewrite <- app_assoc.
    + repeat constructor.
    + discriminate.
Qed.

Lemma detectConfidential_returns w text h :
  exists items d,
    detectConfidential w text h = (Returned items, h ++ d) /\ Forall detector_call d /\
    (generated w h text = None -> items = []).
Proof.
  unfold detectConfidential.
  destruct (negb (JS.truthy text) || negb (JS.truthy (JS.trim text))).
  - exists [], []. unfold ret. rewrite app_nil_r. repeat split. constructor.
  - unfold try_catch, bind, generateObject, logger, ret.
    destruct (generated w h text) as [found|].
    + exists found, [(GenerateObject text, true)]. repeat split.
      * repeat constructor.
      * discriminate.
    + exists [], [(GenerateObject text, false); (LoggerWarn, true)]. repeat split.
      * now rewrite <- app_assoc.
      * repeat constructor.
Qed.

Lemma detect_returns v (w : world (K v)) text h :
  exists items d,
    detect v w text h = (Returned items, h ++ d) /\ Forall detector_call d /\
    (generated w h text = None -> items = []).
Proof.
  destruct v; simpl in *.
  - apply detectConfidential_returns.
  - destruct (detectPII_returns w text h) as (items & d & H1 & H2 & H3 & _).
    now exists items, d.
  - destruct (detectPII_returns w text h) as (items & d & H1 & H2 & H3 & _).
    now exists items, d.
Qed.

(** ** One flush *)

Lemma emit_works v (w : world (K v)) ct san h :
  channels_work w -> emit v w ct san h = (Returned tt, h ++ emission v ct san).
Proof.
  intros Hw. unfold emit, emission, write.
  destruct v; cbv zeta.
  1,2: destruct (JS.truthy (JS.slice (length ct) san));
       [ unfold bind; rewrite !perform_works by assumption;
         now rewrite <- app_assoc
       | unfold ret; now rewrite app_nil_r ].
  now apply perform_works.
Qed.

Lemma validateAndFlush_works v (w : world (K v)) ct buf h items d :
  channels_work w ->
  detect v w (ct ++ buf) (h ++ [checking ct buf])
    = (Returned items, (h ++ [checking ct buf]) ++ d) ->
  validateAndFlush v w ct buf h =
  (Returned (JS.slice_last (CARRY_TAIL_LENGTH v) (sanitize v (ct ++ buf) items)),
   h ++ [checking ct buf] ++ d
     ++ [(ChanWrite auditStream (verdict_line v items), true)]
     ++ emission v ct (sanitize v (ct ++ buf) items)).
Proof.
  intros Hw Hd. unfold validateAndFlush, write. cbv zeta.
  erewrite bind_returned by (now apply perform_works).
  fold (checking ct buf).
  erewrite bind_returned by exact Hd.
  unfold sanitize, verdict_line.
  destruct (0 <? length items);
    ( unfold bind at 1; unfold bind at 1; rewrite perform_works by assumption;
      unfold ret at 1; unfold bind; rewrite emit_works by assumption;
      unfold ret; now rewrite <- !app_assoc ).
Qed.

Lemma detect_answer v (w : world (K v)) text h items :
  fst (detect v w text h) = Returned items ->
  exists d, detect v w text h = (Returned items, h ++ d) /\ Forall detector_call d.
Proof.
  destruct (detect_returns v w text h) as (items' & d & Hd & Hcalls & _).
  rewrite Hd. simpl. intros H. injection H as ->. now exists d.
Qed.

(** C10: in the two incremental drivers, a flush whose sanitized text is no
    longer than the carry tail writes nothing to the main stream and no
    [Emitted] line: the audit stream gets the [Checking] line and the line
    with the detector's verdict, and nothing else. *)
Theorem flush_within_overlap_emits_nothing
  v (w : world (K v)) carryTail buffer h items :
  v <> pii_sentence ->
  channels_work w ->
  fst (detect v w (carryTail ++ buffer) (h ++ [checking carryTail buffer]))
    = Returned items ->
  length (sanitize v (carryTail ++ buffer) items) <= length carryTail ->
  exists carryTail' h',
    validateAndFlush v w carryTail buffer h = (Returned carryTail', h') /\
    written mainStream h' = written mainStream h /\
    audit_lines h' =
      audit_lines h ++ [ checking_line (length (carryTail ++ buffer));
                         verdict_line v items ].
Proof.
  intros Hv Hw Hans Hlen.
  destruct (@detect_answer v w _ _ _ Hans) as (d & Hd & Hcalls).
  rewrite (@validateAndFlush_works v w carryTail buffer h items d Hw Hd).
  eexists _, _. split; [reflexivity|].
  assert (Hem : emission v carryTail (sanitize v (carryTail ++ buffer) items) = []).
  { unfold emission, JS.slice. rewrite skipn_all2 by exact Hlen.
    destruct v; try reflexivity. now elim Hv. }
  rewrite Hem, app_nil_r. unfold audit_lines.
  rewrite !written_app, !(@detector_calls_written _ d Hcalls).
  split; [apply app_nil_r | reflexivity].
Qed.

Lemma flush_within_overlap_emits_nothing_witness :
  let w := scripted_detector (fun _ => formula_span) in
  let carryTail := lit "The formula is EVA 60%, TPU 28%, " in
  let buffer := lit "aerogel 12%." in
  length (sanitize confidential (carryTail ++ buffer) formula_span) <= length carryTail
  /\ exists carryTail' h',
      validateAndFlush confidential w carryTail buffer [] = (Returned carryTail', h') /\
      written mainStream h' = written mainStream [] /\
      audit_lines h' =
        audit_lines [] ++ [ checking_line (length (carryTail ++ buffer));
                            verdict_line confidential formula_span ].
Proof.
  intros w carryTail buffer.
  assert (Hlen : length (sanitize confidential (carryTail ++ buffer) formula_span)
                 <= length carryTail).
  { vm_compute. lia. }
  split; [exact Hlen|].
  apply (@flush_within_overlap_emits_nothing confidential w carryTail buffer []
           formula_span).
  - discriminate.
  - intros h k. reflexivity.
  - reflexivity.
  - exact Hlen.
Defined.

Example flush_within_overlap_sanitized :
  sanitize confidential (lit "The formula is EVA 60%, TPU 28%, aerogel 12%.") formula_span
  = lit "The formula is [REDACTED:RND].".
Proof. reflexivity. Qed.

(** ** The carry tail *)

Lemma slice_last_length n s : length (JS.slice_last n s) <= n \/ n = 0.
Proof.
  destruct n as [|n]; [now right | left].
  unfold JS.slice_last. rewrite length_skipn. lia.
Qed.

Lemma CARRY_TAIL_LENGTH_pos v : CARRY_TAIL_LENGTH v <> 0.
Proof. destruct v; discriminate. Qed.

Lemma validateAndFlush_result v (w : world (K v)) ct buf h ct' h' :
  validateAndFlush v w ct buf h = (Returned ct', h') ->
  exists sanitized, ct' = JS.slice_last (CARRY_TAIL_LENGTH v) sanitized.
Proof.
  unfold validateAndFlush. cbv zeta. intros H.
  apply bind_inv in H as (_ & h1 & _ & H).
  apply bind_inv in H as (items & h2 & _ & H).
  apply bind_inv in H as (sanitized & h3 & _ & H).
  apply bind_inv in H as (_ & h4 & _ & H).
  apply ret_inv in H as [<- _]. now exists sanitized.
Qed.

Lemma validateAndFlush_bounded v (w : world (K v)) ct buf h ct' h' :
  validateAndFlush v w ct buf h = (Returned ct', h') ->
  length ct' <= CARRY_TAIL_LENGTH v.
Proof.
  intros H. apply validateAndFlush_result in H as [sanitized ->].
  destruct (slice_last_length (CARRY_TAIL_LENGTH v) sanitized) as [Hle | H0].
  - exact Hle.
  - now elim (CARRY_TAIL_LENGTH_pos v).
Qed.

Lemma on_event_bounded v (w : world (K v)) st ev h st' h' :
  on_event v w st ev h = (Returned st', h') ->
  length (carryTail st) <= CARRY_TAIL_LENGTH v ->
  length (carryTail st') <= CARRY_TAIL_LENGTH v.
Proof.
  unfold on_event. destruct ev as [text| |].
  - cbv zeta. destruct (shouldFlush v (pendingBuffer st ++ text)).
    + intros H _. apply bind_inv in H as (ct & h1 & Hf & H).
      apply ret_inv in H as [<- _]. simpl.
      now apply validateAndFlush_bounded in Hf.
    + intros H. apply ret_inv in H as [<- _]. now simpl.
  - intros H. now apply ret_inv in H as [<- _].
  - intros H. now apply ret_inv in H as [<- _].
Qed.

Lemma drain_bounded v (w : world (K v)) st h st' h' :
  drain v w st h = (Returned st', h') ->
  length (carryTail st) <= CARRY_TAIL_LENGTH v ->
  length (carryTail st') <= CARRY_TAIL_LENGTH v.
Proof.
  unfold drain. destruct (0 <? length (pendingBuffer st)).
  - intros H _. apply bind_inv in H as (_ & h1 & _ & H).
    apply bind_inv in H as (ct & h2 & Hf & H).
    apply ret_inv in H as [<- _]. simpl.
    now apply validateAndFlush_bounded in Hf.
  - intros H. now apply ret_inv in H as [<- _].
Qed.

(** The loop and the [try] block only pass through reachable states. *)
Lemma for_await_reachable v (w : world (K v)) s st h st' h' :
  reachable v w st h ->
  for_await v w s st h = (Returned st', h') ->
  reachable v w st' h'.
Proof.
  revert st h. induction s as [| |ev rest IH]; intros st h Hr H.
  - now apply ret_inv in H as [<- <-].
  - discriminate.
  - cbn [for_await] in H. apply bind_inv in H as (st1 & h1 & Hev & H).
    assert (Hr1 : reachable v w st1 h1) by (eapply reach_event; eassumption).
    destruct ev.
    + now apply IH in H.
    + now apply ret_inv in H as [<- <-].
    + now apply IH in H.
Qed.

Lemma try_block_reachable v (w : world (K v)) s h st h' :
  try_block v w s h = (Returned st, h') ->
  exists h1, reachable v w st h1.
Proof.
  unfold try_block. intros H.
  apply bind_inv in H as (_ & h1 & _ & H).
  apply bind_inv in H as (st1 & h2 & Hloop & H).
  apply bind_inv in H as (st2 & h3 & Hdrain & H).
  apply bind_inv in H as (_ & h4 & _ & H).
  apply bind_inv in H as (_ & h5 & _ & H).
  apply bind_inv in H as (_ & h6 & _ & H).
  apply ret_inv in H as [<- _].
  exists h3. eapply reach_drain; [|exact Hdrain].
  eapply for_await_reachable; [apply reach_start | exact Hloop].
Qed.

(** C8: at every point of a session the carry tail has at most
    [CARRY_TAIL_LENGTH] code units (64, 64 and 32 in the three drivers): it
    starts empty and every flush leaves the last [CARRY_TAIL_LENGTH] code
    units of the sanitized text in it. *)
Theorem carryTail_bounded v (w : world (K v)) st h :
  reachable v w st h -> length (carryTail st) <= CARRY_TAIL_LENGTH v.
Proof.
  induction 1 as [h | st h ev st' h' _ IH Hev | st h st' h' _ IH Hdrain].
  - simpl. lia.
  - eapply on_event_bounded; eassumption.
  - eapply drain_bounded; eassumption.
Qed.

Lemma carryTail_bounded_witness :
  let w := failing_detector PiiType in
  let r := on_event pii_sentence w initial (text_delta long_sentence) [] in
  reachable pii_sentence w (returned_or initial r) (snd r)
  /\ length (carryTail (returned_or initial r)) <= CARRY_TAIL_LENGTH pii_sentence.
Proof.
  intros w r.
  assert (Hr : reachable pii_sentence w (returned_or initial r) (snd r)).
  { apply (@reach_event pii_sentence w initial [] (text_delta long_sentence)).
    - apply reach_start.
    - reflexivity. }
  split; [exact Hr|].
  exact (@carryTail_bounded pii_sentence w _ _ Hr).
Defined.

Example carryTail_after_long_sentence :
  carryTail (returned_or initial
               (on_event pii_sentence (failing_detector PiiType) initial
                  (text_delta long_sentence) []))
  = lit " from misuse and from exposure. ".
Proof. reflexivity. Qed.

(** ** The flush policy *)

Lemma is_sentence_end_spec c : is_sentence_end c = true <-> In c (lit ".!?").
Proof.
  unfold is_sentence_end. rewrite existsb_exists. split.
  - intros [x [Hin Heq]]. apply N.eqb_eq in Heq. now subst.
  - intros H. exists c. split; [exact H | apply N.eqb_refl].
Qed.

Lemma SENTENCE_END_exec_from_spec i s :
  SENTENCE_END_exec_from i s <> None <-> sentence_terminator s.
Proof.
  revert i. induction s as [|c s IH]; intros i.
  - split; [now intros H | intros (pre & c & d & post & H & _)].
    now destruct pre.
  - cbn [SENTENCE_END_exec_from]. destruct s as [|d s].
    + split; [now intros H | intros (pre & c' & d & post & H & _)].
      destruct pre as [|x [|y pre]]; discriminate.
    + destruct (is_sentence_end c && JS.white_space d) eqn:E.
      * split; [intros _ | discriminate].
        apply andb_true_iff in E as [Hc Hd].
        exists [], c, d, s. repeat split; [now apply is_sentence_end_spec | exact Hd].
      * rewrite IH. split.
        -- intros (pre & c' & d' & post & H & Hc & Hd).
           exists (c :: pre), c', d', post. simpl. now rewrite H.
        -- intros (pre & c' & d' & post & H & Hc & Hd).
           destruct pre as [|x pre]; simpl in H.
           ++ injection H as -> -> ->.
              apply is_sentence_end_spec in Hc. rewrite Hc, Hd in E. discriminate.
           ++ injection H as -> H. now exists pre, c', d', post.
Qed.

Lemma shouldFlush_sentence_spec buf :
  shouldFlush pii_sentence buf = true <->
  200 <= length buf \/ (80 <= length buf /\ sentence_terminator buf).
Proof.
  unfold shouldFlush, SENTENCE_END_exec. cbv zeta.
  rewrite orb_true_iff, Nat.leb_le.
  rewrite <- (SENTENCE_END_exec_from_spec 0 buf).
  destruct (SENTENCE_END_exec_from 0 buf) as [i|].
  - rewrite Nat.leb_le. unfold CHAR_THRESHOLD, MIN_SENTENCE_CHARS.
    split; (intros [H | H]; [now left | right]).
    + split; [exact H | discriminate].
    + apply H.
  - unfold CHAR_THRESHOLD. split; (intros [H | H]; [now left|]).
    + discriminate.
    + now destruct H as [_ H].
Qed.

Lemma extends_detect v (w : world (K v)) text : extends (detect v w text).
Proof.
  intros h. destruct (detect_returns v w text h) as (items & d & Hd & _).
  exists d. now rewrite Hd.
Qed.

Lemma extends_emit v (w : world (K v)) ct san : extends (emit v w ct san).
Proof.
  unfold emit, write. destruct v; cbv zeta; auto 6 with extends.
Qed.

(** Every flush begins with the write of its [Checking] line. *)
Lemma validateAndFlush_starts v (w : world (K v)) ct buf h :
  exists ok rest,
    snd (validateAndFlush v w ct buf h) =
    h ++ (ChanWrite auditStream (checking_line (length (ct ++ buf))), ok) :: rest.
Proof.
  unfold validateAndFlush, write. cbv zeta.
  set (k := fun _ : unit => _).
  assert (Hk : forall a, extends (k a)).
  { intros a. subst k. cbv beta.
    apply extends_bind; [apply extends_detect|]. intros items.
    apply extends_bind.
    - unfold write. auto 6 with extends.
    - intros san. apply extends_bind; [apply extends_emit | auto with extends]. }
  unfold bind at 1. unfold perform at 1. cbv zeta.
  destruct (chan_ok w h _) eqn:E.
  - destruct (Hk tt (h ++ [(ChanWrite auditStream (checking_line (length (ct ++ buf))), true)]))
      as [d Hd].
    exists true, d. rewrite Hd. now rewrite <- app_assoc.
  - exists false, []. reflexivity.
Qed.

(** C9: under the size-or-sentence policy, after every appended delta a
    flush is dispatched exactly when the whole pending buffer has at least
    200 code units, or has at least 80 and holds a sentence terminator
    anywhere. *)
Theorem size_or_sentence_policy :
  (forall buf,
      shouldFlush pii_sentence buf = true <->
      200 <= length buf \/ (80 <= length buf /\ sentence_terminator buf))
  /\
  (forall (w : world (K pii_sentence)) st text h,
      let buf := pendingBuffer st ++ text in
      let h' := snd (on_event pii_sentence w st (text_delta text) h) in
      (200 <= length buf \/ (80 <= length buf /\ sentence_terminator buf))
      <->
      exists ok rest,
        h' = h ++ (ChanWrite auditStream
                     (checking_line (length (carryTail st ++ buf))), ok) :: rest).
Proof.
  split; [exact shouldFlush_sentence_spec|].
  intros w st text h buf h'. rewrite <- shouldFlush_sentence_spec.
  subst h'. unfold on_event. cbv zeta. fold buf.
  destruct (shouldFlush pii_sentence buf).
  - split; [intros _ | reflexivity].
    destruct (validateAndFlush_starts pii_sentence w (carryTail st) buf h)
      as (ok & rest & Hs).
    unfold bind. destruct (validateAndFlush pii_sentence w (carryTail st) buf h)
      as [[ct|] h1]; simpl in Hs |- *; subst h1; now exists ok, rest.
  - split; [discriminate|]. intros (ok & rest & H). simpl in H.
    apply (f_equal (@length _)) in H. rewrite length_app in H. simpl in H. lia.
Qed.

Example terminator_in_earlier_part_flushes :
  let st := {| pendingBuffer := lit "Ok. " ++ repeat 120%N 70; carryTail := [] |} in
  shouldFlush pii_sentence (pendingBuffer st) = false
  /\ shouldFlush pii_sentence (lit "no stop") = false
  /\ pendingBuffer
       (returned_or st (on_event pii_sentence (failing_detector PiiType) st
                          (text_delta (lit "no stop")) []))
     = [].
Proof. repeat split; reflexivity. Qed.

(** ** Clearing the pending buffer *)

(** C7, as stated, fails for the final draining flush: the [try] block ends
    with the drained text still in [pendingBuffer]. *)
Lemma pendingBuffer_kept_by_final_flush :
  option_map pendingBuffer
    (returned (try_block pii (failing_detector PiiType) two_letters []))
  = Some (lit "Hi")
  /\ lit "Hi" <> [].
Proof. split; [reflexivity | discriminate]. Qed.

(** C7, amended: in every threshold-triggered flush cycle [pendingBuffer] is
    cleared to empty exactly once, right after the flush of the whole buffer
    has returned, and a delta that triggers no flush is only appended; the
    final draining flush leaves [pendingBuffer] as it is. *)
Theorem pendingBuffer_cleared_after_threshold_flush :
  (forall v (w : world (K v)) st text h st' h',
      on_event v w st (text_delta text) h = (Returned st', h') ->
      let buf := pendingBuffer st ++ text in
      (shouldFlush v buf = true ->
         pendingBuffer st' = [] /\
         validateAndFlush v w (carryTail st) buf h = (Returned (carryTail st'), h'))
      /\
      (shouldFlush v buf = false ->
         pendingBuffer st' = buf /\ carryTail st' = carryTail st /\ h' = h))
  /\
  (forall v (w : world (K v)) st h st' h',
      drain v w st h = (Returned st', h') ->
      pendingBuffer st' = pendingBuffer st).
Proof.
  split.
  - intros v w st text h st' h' H buf. unfold on_event in H. cbv zeta in H.
    fold buf in H. destruct (shouldFlush v buf).
    + split; [intros _ | discriminate].
      apply bind_inv in H as (ct & h1 & Hf & H).
      apply ret_inv in H as [<- <-]. now split.
    + split; [discriminate | intros _].
      apply ret_inv in H as [<- <-]. now repeat split.
  - intros v w st h st' h' H. unfold drain in H.
    destruct (0 <? length (pendingBuffer st)).
    + apply bind_inv in H as (_ & h1 & _ & H).
      apply bind_inv in H as (ct & h2 & _ & H).
      now apply ret_inv in H as [<- _].
    + now apply ret_inv in H as [<- _].
Qed.

Lemma pendingBuffer_cleared_after_threshold_flush_witness :
  let w := failing_detector PiiType in
  let r := on_event pii_sentence w initial (text_delta long_sentence) [] in
  let remaining := {| pendingBuffer := lit "Hi"; carryTail := [] |} in
  (shouldFlush pii_sentence (pendingBuffer initial ++ long_sentence) = true
   /\ pendingBuffer (returned_or initial r) = [])
  /\ pendingBuffer (returned_or initial (drain pii w remaining [])) = lit "Hi".
Proof.
  intros w r remaining.
  assert (Hflush : shouldFlush pii_sentence (pendingBuffer initial ++ long_sentence) = true)
    by reflexivity.
  split; [split; [exact Hflush|] |].
  - exact (proj1 (proj1 (proj1 pendingBuffer_cleared_after_threshold_flush
                           pii_sentence w initial long_sentence []
                           (returned_or initial r) (snd r) eq_refl)
                    Hflush)).
  - exact (proj2 pendingBuffer_cleared_after_threshold_flush
             pii w remaining []
             (returned_or initial (drain pii w remaining []))
             (snd (drain pii w remaining [])) eq_refl).
Defined.

(** ** The error path *)

(** C6 at its failing input: the [catch] block of the confidential driver
    closes the two streams one after the other without a [try] of their
    own, so a failing [mainStream.close()] leaves the audit stream unclosed
    and the task rejects; the [catch] block of the PII driver goes on to
    close the audit stream and returns. *)
Theorem confidential_catch_block_stops_at_failed_close :
  background_task confidential (main_close_fails _) broken_stream []
  = (Thrown,
     [ (ChanWrite auditStream (start_line confidential), true);
       (LoggerError, true);
       (ChanClose mainStream, false) ])
  /\
  ~ attempted (ChanClose auditStream)
      (snd (background_task confidential (main_close_fails _) broken_stream []))
  /\
  background_task pii (main_close_fails _) broken_stream []
  = (Returned tt,
     [ (ChanWrite auditStream (start_line pii), true);
       (LoggerError, true);
       (ChanWrite auditStream error_line, true);
       (ChanClose mainStream, false);
       (ChanClose auditStream, true) ]).
Proof.
  split; [reflexivity|]. split; [|reflexivity].
  intros [ok H]. vm_compute in H.
  destruct H as [H | [H | [H | []]]]; discriminate H.
Qed.

(** The [catch] block of the two PII drivers: once its audit line is
    written, both closes are attempted whatever their outcome, and the block
    returns. *)
Lemma wrapped_catch_block_closes_both v (w : world (K v)) h :
  v <> confidential ->
  chan_ok w (h ++ [(LoggerError, true)]) (ChanWrite auditStream error_line) = true ->
  exists ok1 ok2,
    catch_block v w h =
    (Returned tt,
     h ++ [ (LoggerError, true);
            (ChanWrite auditStream error_line, true);
            (ChanClose mainStream, ok1);
            (ChanClose auditStream, ok2) ]).
Proof.
  intros Hv Hok.
  assert (H : catch_block v w h =
              (logger LoggerError ;;
               write w auditStream error_line ;;
               try_catch (close w mainStream) (ret tt) ;;
               try_catch (close w auditStream) (ret tt)) h).
  { destruct v; [now elim Hv | reflexivity | reflexivity]. }
  rewrite H. unfold bind, logger, write, close, try_catch, perform, ret.
  rewrite Hok.
  set (h2 := (h ++ [(LoggerError, true)]) ++ [(ChanWrite auditStream error_line, true)]).
  exists (chan_ok w h2 (ChanClose mainStream)).
  exists (chan_ok w (h2 ++ [(ChanClose mainStream, chan_ok w h2 (ChanClose mainStream))])
            (ChanClose auditStream)).
  subst h2.
  destruct (chan_ok w _ (ChanClose mainStream));
    destruct (chan_ok w _ (ChanClose auditStream));
    now rewrite <- !app_assoc.
Qed.

(** The audit line of that [catch] block is written outside the two [try]
    blocks: when the write throws, neither stream is closed. *)
Example wrapped_catch_block_after_failed_audit_write :
  background_task pii (audit_write_fails _) broken_stream []
  = (Thrown,
     [ (ChanWrite auditStream (start_line pii), false);
       (LoggerError, true);
       (ChanWrite auditStream error_line, false) ]).
Proof. reflexivity. Qed.

(** ** Emission *)

(** With working channels, a flush of an incremental driver adds to the main
    stream exactly what lies beyond the overlap in the sanitized text; the
    size-or-sentence driver adds the whole sanitized text, overlap
    included. *)
Lemma flush_main_output v (w : world (K v)) ct buf h items :
  channels_work w ->
  fst (detect v w (ct ++ buf) (h ++ [checking ct buf])) = Returned items ->
  let sanitized := sanitize v (ct ++ buf) items in
  main_output (snd (validateAndFlush v w ct buf h)) =
  main_output h ++ match v with
                   | confidential | pii => JS.slice (length ct) sanitized
                   | pii_sentence => sanitized
                   end.
Proof.
  intros Hw Hans sanitized.
  destruct (@detect_answer v w _ _ _ Hans) as (d & Hd & Hcalls).
  rewrite (@validateAndFlush_works v w ct buf h items d Hw Hd). cbn [snd].
  fold sanitized. unfold main_output.
  rewrite !written_app, !(@detector_calls_written _ d Hcalls), !concat_app.
  cbn [written flat_map chan_eqb app concat fst]. f_equal.
  unfold emission. destruct v; cbv zeta.
  1,2: destruct (JS.slice (length ct) sanitized) eqn:E; cbn;
       [reflexivity | now rewrite app_nil_r].
  cbn. now rewrite app_nil_r.
Qed.

Lemma always_fails_finds_nothing {K} (w : world K) :
  detector_always_fails w -> finds_nothing w.
Proof. intros H h text. left. apply H. Qed.

Lemma detect_nothing v (w : world (K v)) text h :
  finds_nothing w ->
  exists d, detect v w text h = (Returned [], h ++ d) /\ Forall detector_call d.
Proof.
  intros Hn.
  assert (HP : forall (w : world PiiType),
             finds_nothing w ->
             exists d, detectPII w text h = (Returned [], h ++ d) /\ Forall detector_call d).
  { intros w' Hn'.
    destruct (detectPII_returns w' text h) as (items & d & Hd & Hc & Hnone & Hsome).
    exists d. split; [|exact Hc]. rewrite Hd.
    destruct (Hn' h text) as [E | E]; [now rewrite (Hnone E) | now rewrite (Hsome _ E)]. }
  destruct v; simpl in *; try (now apply HP).
  unfold detectConfidential.
  destruct (negb (JS.truthy text) || negb (JS.truthy (JS.trim text))).
  - exists []. unfold ret. rewrite app_nil_r. split; constructor.
  - unfold try_catch, bind, generateObject, logger, ret.
    destruct (Hn h text) as [E | E]; rewrite E.
    + exists [(GenerateObject text, false); (LoggerWarn, true)].
      rewrite <- app_assoc. split; repeat constructor.
    + exists [(GenerateObject text, true)]. split; repeat constructor.
Qed.

Lemma none_claimed_app d1 d2 :
  none_claimed d1 -> none_claimed d2 -> none_claimed (d1 ++ d2).
Proof.
  unfold none_claimed. rewrite written_app. intros H1 H2.
  apply Forall_app. now split.
Qed.

Lemma none_claimed_detector d : Forall detector_call d -> none_claimed d.
Proof.
  intros H. unfold none_claimed. rewrite (@detector_calls_written _ d H). constructor.
Qed.

(** A flush in which the detector reports nothing, in an incremental
    driver: the buffer goes to the main stream as it is. *)
Lemma flush_nothing_found v (w : world (K v)) ct buf h :
  v <> pii_sentence ->
  channels_work w ->
  finds_nothing w ->
  exists d,
    validateAndFlush v w ct buf h
    = (Returned (JS.slice_last (CARRY_TAIL_LENGTH v) (ct ++ buf)), h ++ d)
    /\ main_output d = buf
    /\ none_claimed d.
Proof.
  intros Hv Hw Hn.
  destruct (@detect_nothing v w (ct ++ buf) (h ++ [checking ct buf]) Hn)
    as (d & Hd & Hcalls).
  rewrite (@validateAndFlush_works v w ct buf h [] d Hw Hd).
  unfold sanitize, verdict_line. cbn [length Nat.ltb Nat.leb].
  eexists. split; [reflexivity|].
  assert (Hslice : JS.slice (length ct) (ct ++ buf) = buf).
  { unfold JS.slice. rewrite skipn_app, skipn_all, Nat.sub_diag. reflexivity. }
  split.
  - unfold main_output.
    rewrite !written_app, !(@detector_calls_written _ d Hcalls), !concat_app.
    unfold emission. destruct v; try (now elim Hv); cbv zeta; rewrite Hslice;
      destruct buf; cbn; try reflexivity; now rewrite app_nil_r.
  - repeat apply none_claimed_app.
    + repeat constructor.
    + now apply none_claimed_detector.
    + destruct v; repeat constructor.
    + unfold emission. destruct v; try (now elim Hv); cbv zeta;
        destruct (JS.truthy (JS.slice (length ct) (ct ++ buf))); repeat constructor.
Qed.

(** ** Fail-open in the incremental drivers *)

Lemma for_await_nothing_found v (w : world (K v)) s :
  v <> pii_sentence ->
  channels_work w ->
  finds_nothing w ->
  stream_throws s = false ->
  forall st h,
  exists st' d,
    for_await v w s st h = (Returned st', h ++ d)
    /\ main_output d ++ pendingBuffer st' = pendingBuffer st ++ concat (deltas s)
    /\ none_claimed d.
Proof.
  intros Hv Hw Hn. induction s as [| |ev rest IH]; intros Hs st h.
  - exists st, []. cbn. rewrite !app_nil_r. repeat split. constructor.
  - discriminate.
  - cbn [for_await]. destruct ev as [text| |].
    + cbn [stream_throws] in Hs. cbn [deltas concat]. unfold on_event. cbv zeta.
      destruct (shouldFlush v (pendingBuffer st ++ text)).
      * destruct (@flush_nothing_found v w (carryTail st) (pendingBuffer st ++ text) h
                    Hv Hw Hn) as (d1 & Hf & Hm1 & Hc1).
        unfold bind at 1. unfold bind at 1. rewrite Hf. unfold ret at 1.
        destruct (IH Hs {| pendingBuffer := [];
                           carryTail := JS.slice_last (CARRY_TAIL_LENGTH v)
                                          (carryTail st ++ pendingBuffer st ++ text) |}
                    (h ++ d1)) as (st' & d2 & Hl & Hm2 & Hc2).
        exists st', (d1 ++ d2). rewrite Hl, app_assoc. split; [reflexivity|].
        split; [|now apply none_claimed_app].
        cbn [pendingBuffer app] in Hm2.
        rewrite main_output_app, Hm1, <- !app_assoc. f_equal.
        cbn [concat]. now rewrite Hm2.
      * unfold bind at 1. unfold ret at 1.
        destruct (IH Hs {| pendingBuffer := pendingBuffer st ++ text;
                           carryTail := carryTail st |} h)
          as (st' & d2 & Hl & Hm2 & Hc2).
        exists st', d2. rewrite Hl. split; [reflexivity|]. split; [|exact Hc2].
        rewrite Hm2. cbn [pendingBuffer]. now rewrite <- app_assoc.
    + exists st, []. cbn. rewrite !app_nil_r. repeat split. constructor.
    + cbn [stream_throws] in Hs. cbn [deltas]. unfold on_event.
      unfold bind at 1. unfold ret at 1. apply IH. exact Hs.
Qed.

Lemma drain_nothing_found v (w : world (K v)) st h :
  v <> pii_sentence ->
  channels_work w ->
  finds_nothing w ->
  exists st' d,
    drain v w st h = (Returned st', h ++ d)
    /\ main_output d = pendingBuffer st
    /\ none_claimed d.
Proof.
  intros Hv Hw Hn. unfold drain.
  destruct (pendingBuffer st) as [|c pb] eqn:E.
  - exists st, []. cbn. rewrite app_nil_r. repeat split. constructor.
  - cbn [length Nat.ltb Nat.leb]. unfold write.
    unfold bind at 1. rewrite perform_works by exact Hw.
    destruct (@flush_nothing_found v w (carryTail st) (c :: pb)
                (h ++ [(ChanWrite auditStream (final_check_line (S (length pb))), true)])
                Hv Hw Hn) as (d1 & Hf & Hm1 & Hc1).
    unfold bind. rewrite Hf. unfold ret.
    eexists _, (_ :: d1). rewrite <- app_assoc. split; [reflexivity|].
    split.
    + exact Hm1.
    + apply (@none_claimed_app [_] d1); [|exact Hc1]. repeat constructor.
Qed.

(** The session of an incremental driver whose detector reports nothing:
    it runs to its end, the main stream holds the deltas as they came, no
    audit line claims a finding, and both streams are closed. *)
Lemma session_nothing_found v (w : world (K v)) s h :
  v <> pii_sentence ->
  channels_work w ->
  finds_nothing w ->
  stream_throws s = false ->
  exists d,
    background_task v w s h
    = (Returned tt,
       h ++ d ++ [ (ChanWrite auditStream complete_line, true);
                   (ChanClose mainStream, true);
                   (ChanClose auditStream, true) ])
    /\ main_output d = concat (deltas s)
    /\ none_claimed d.
Proof.
  intros Hv Hw Hn Hs.
  destruct (@for_await_nothing_found v w s Hv Hw Hn Hs initial
              (h ++ [(ChanWrite auditStream (start_line v), true)]))
    as (st1 & d1 & Hl & Hm1 & Hc1).
  destruct (@drain_nothing_found v w st1
              ((h ++ [(ChanWrite auditStream (start_line v), true)]) ++ d1)
              Hv Hw Hn)
    as (st2 & d2 & Hd & Hm2 & Hc2).
  exists ([(ChanWrite auditStream (start_line v), true)] ++ d1 ++ d2).
  split; [|split].
  - unfold background_task, try_catch, try_block, write, close.
    unfold bind at 1. unfold bind at 1. rewrite perform_works by exact Hw.
    unfold bind at 1. fold initial. rewrite Hl.
    unfold bind at 1. rewrite Hd.
    unfold bind. rewrite !perform_works by exact Hw. unfold ret.
    now rewrite <- !app_assoc.
  - rewrite !main_output_app. cbn [main_output written flat_map chan_eqb app concat].
    cbn [pendingBuffer initial] in Hm1. cbn [app] in Hm1.
    rewrite <- Hm1, Hm2. reflexivity.
  - apply (@none_claimed_app [_]); [|now apply none_claimed_app].
    destruct v; repeat constructor.
Qed.

(** Fail-open in the two incremental drivers: when every call of the
    detection model throws, the session still runs to its end, the main
    stream holds the deltas of the generator concatenated in order, and no
    audit line claims a finding. *)
Lemma fail_open_incremental v (w : world (K v)) s :
  v <> pii_sentence ->
  channels_work w ->
  detector_always_fails w ->
  stream_throws s = false ->
  exists h,
    background_task v w s [] = (Returned tt, h)
    /\ main_output h = concat (deltas s)
    /\ none_claimed h.
Proof.
  intros Hv Hw Hf Hs.
  destruct (@session_nothing_found v w s [] Hv Hw (always_fails_finds_nothing Hf) Hs)
    as (d & Hrun & Hmain & Hnone).
  eexists. split; [exact Hrun|]. cbn [app]. split.
  - rewrite main_output_app, Hmain. cbn. now rewrite app_nil_r.
  - apply none_claimed_app; [exact Hnone | repeat constructor].
Qed.

(** ** The size-or-sentence driver writes the overlap again *)

(** C1 at its failing input: the size-or-sentence driver writes the whole
    of [sanitized] in every flush, so the 32 code units carried over as
    overlap reach the main stream a second time; the PII driver with
    incremental emission writes every code unit once. *)
Theorem full_emission_repeats_overlap :
  main_output
    (snd (background_task pii_sentence (scripted_detector (fun _ => [])) two_chunks []))
  = first_chunk ++ JS.slice_last 32 first_chunk ++ lit "It matters."
  /\
  main_output
    (snd (background_task pii (scripted_detector (fun _ => [])) two_chunks []))
  = first_chunk ++ lit "It matters.".
Proof. split; vm_compute; reflexivity. Qed.

(** C2 at its failing input: with a detector that always fails, the
    size-or-sentence driver does not put the concatenated deltas on the
    main stream: the overlap of the first flush is there twice. *)
Theorem fail_open_full_emission_repeats_overlap :
  background_task pii_sentence (failing_detector PiiType) two_sentences []
  = (Returned tt,
     [ (ChanWrite auditStream (lit "Starting PII guardrail..." ++ [LF]), true);
       (ChanWrite auditStream (lit "Checking 84 chars..." ++ [LF]), true);
       (GenerateObject long_sentence, false);
       (LoggerWarn, true);
       (ChanWrite auditStream (lit "No PII found." ++ [LF]), true);
       (ChanWrite mainStream long_sentence, true);
       (ChanWrite auditStream (lit "Final check 11 chars..." ++ [LF]), true);
       (ChanWrite auditStream (lit "Checking 43 chars..." ++ [LF]), true);
       (GenerateObject (lit " from misuse and from exposure. It matters."), false);
       (LoggerWarn, true);
       (ChanWrite auditStream (lit "No PII found." ++ [LF]), true);
       (ChanWrite mainStream (lit " from misuse and from exposure. It matters."), true);
       (ChanWrite auditStream (lit "Stream complete." ++ [LF]), true);
       (ChanClose mainStream, true);
       (ChanClose auditStream, true) ])
  /\
  main_output
    (snd (background_task pii_sentence (failing_detector PiiType) two_sentences []))
  = long_sentence ++ lit " from misuse and from exposure. " ++ lit "It matters."
  /\
  concat (deltas two_sentences) = long_sentence ++ lit "It matters.".
Proof. repeat split; vm_compute; reflexivity. Qed.

(** In the incremental drivers what is emitted is cut at the length of the
    carry tail, also when redaction has changed the text inside the overlap:
    the part of the address that was already written stays, and the marker
    that replaces the whole address loses its first code units. *)
Example incremental_emission_cuts_redacted_overlap :
  main_output (snd (background_task pii address_detector split_address []))
  = repeat 120%N 190 ++ lit " mail john@" ++ lit "CTED:EMAIL] today.".
Proof. vm_compute. reflexivity. Qed.

(* ===================================================================== *)
(** * Further properties of the code *)
(* ===================================================================== *)

(** ** [redaction.ts] *)

(** X1: [redactConfidential] ignores the items whose value is empty: the
    result is the one for the list without them, whatever the text and
    wherever they stand in the list. *)
Theorem redactConfidential_ignores_empty_values text items :
  redactConfidential text items
  = redactConfidential text (filter (fun i => JS.truthy (value i)) items).
Proof. apply redactConfidential_skips_empty. Qed.

Lemma sorted_strictly l :
  Sorted longer_or_equal l -> distinct_lengths l -> StronglySorted strictly_longer l.
Proof.
  intros Hs Hd. apply Sorted_StronglySorted in Hs.
  - unfold distinct_lengths in Hd.
    induction Hs as [|a l Hs IH Hall]; [constructor|].
    cbn [map] in Hd. apply NoDup_cons_iff in Hd as [Hnotin Hd].
    constructor; [now apply IH|].
    rewrite Forall_forall in Hall |- *. intros b Hb.
    pose proof (Hall b Hb) as Hle. unfold longer_or_equal in Hle.
    unfold strictly_longer.
    destruct (Nat.eq_dec (length (value b)) (length (value a))) as [E|E]; [|lia].
    elim Hnotin. rewrite <- E.
    now apply (in_map (fun i => length (value i))).
  - intros x y z. unfold longer_or_equal. lia.
Qed.

Lemma strictly_sorted_unique l1 :
  forall l2,
    StronglySorted strictly_longer l1 -> StronglySorted strictly_longer l2 ->
    Permutation l1 l2 -> l1 = l2.
Proof.
  induction l1 as [|a l1 IH]; intros l2 H1 H2 Hp.
  - apply Permutation_nil in Hp. now subst.
  - destruct l2 as [|b l2].
    + apply Permutation_sym, Permutation_nil in Hp. discriminate.
    + apply StronglySorted_inv in H1 as [H1 Ha].
      apply StronglySorted_inv in H2 as [H2 Hb].
      rewrite Forall_forall in Ha, Hb.
      assert (Hab : a = b).
      { assert (Hina : In a (b :: l2))
          by (apply (Permutation_in a Hp); now left).
        assert (Hinb : In b (a :: l1))
          by (apply (Permutation_in b (Permutation_sym Hp)); now left).
        destruct Hina as [E | Hina]; [now symmetry|].
        destruct Hinb as [E | Hinb]; [exact E|].
        apply Hb in Hina. apply Ha in Hinb. unfold strictly_longer in *. lia. }
      subst b. f_equal. apply IH; try assumption.
      now apply Permutation_cons_inv in Hp.
Qed.

Lemma distinct_lengths_perm l1 l2 :
  Permutation l1 l2 -> distinct_lengths l1 -> distinct_lengths l2.
Proof.
  unfold distinct_lengths. intros Hp.
  apply Permutation_NoDup. now apply Permutation_map.
Qed.

(** X2: the order in which the detector returns the items does not matter to
    [redactConfidential] when their values have pairwise different lengths:
    two lists with the same items give the same redacted text. *)
Theorem redactConfidential_order_independent text items items' :
  Permutation items items' ->
  distinct_lengths items ->
  redactConfidential text items = redactConfidential text items'.
Proof.
  intros Hp Hd.
  assert (Hsort : JS.sort by_length_desc items = JS.sort by_length_desc items').
  { apply strictly_sorted_unique.
    - apply sorted_strictly; [apply sort_sorted|].
      apply (distinct_lengths_perm (sort_perm _ items) Hd).
    - apply sorted_strictly; [apply sort_sorted|].
      apply (distinct_lengths_perm (sort_perm _ items')).
      now apply (distinct_lengths_perm Hp).
    - rewrite <- (sort_perm _ items), <- (sort_perm _ items'). exact Hp. }
  change (redactConfidential text items)
    with (if Nat.eqb (length items) 0 then text
          else fold_left redactConfidential_step (JS.sort by_length_desc items) text).
  change (redactConfidential text items')
    with (if Nat.eqb (length items') 0 then text
          else fold_left redactConfidential_step (JS.sort by_length_desc items') text).
  now rewrite Hsort, (Permutation_length Hp).
Qed.

Lemma redactConfidential_order_independent_witness :
  distinct_lengths contact_and_extension
  /\ redactConfidential (lit "Call 555-1234 ext 2 today.") contact_and_extension
     = redactConfidential (lit "Call 555-1234 ext 2 today.") (rev contact_and_extension).
Proof.
  assert (Hd : distinct_lengths contact_and_extension).
  { unfold distinct_lengths. cbn.
    repeat constructor; cbn; intuition discriminate. }
  split; [exact Hd|].
  apply redactConfidential_order_independent; [|exact Hd].
  apply Permutation_rev.
Defined.



Example priced_item_redacted :
  redactConfidential (lit "Now $1.99 (+tax), was $1x99 (++tax).") [priced_item]
  = lit "Now [REDACTED:STRATEGY], was $1x99 (++tax).".
Proof. reflexivity. Qed.

(** X4: text that holds none of the values comes back unchanged from both
    redaction functions ([redactConfidential] does not look at empty
    values). *)
Theorem redact_leaves_clean_text :
  (forall (text : str) (items : list PiiItem),
      (forall i, In i items -> ~ occurs (value i) text) ->
      redactPII text items = text)
  /\
  (forall (text : str) (items : list ConfidentialItem),
      (forall i, In i items -> value i <> [] -> ~ occurs (value i) text) ->
      redactConfidential text items = text).
Proof. split; intros text items H; [now apply redactPII_clean | now apply redactConfidential_clean]. Qed.

Lemma redact_leaves_clean_text_witness :
  let text := lit "Explain how neural networks work." in
  ((forall i, In i contact_details -> ~ occurs (value i) text)
   /\ redactPII text contact_details = text)
  /\
  ((forall i, In i quarter_figures -> value i <> [] -> ~ occurs (value i) text)
   /\ redactConfidential text quarter_figures = text).
Proof.
  intros text.
  assert (H1 : forall i, In i contact_details -> ~ occurs (value i) text).
  { intros i [<- | [<- | []]]; rewrite <- occursb_spec; vm_compute; discriminate. }
  assert (H2 : forall i, In i quarter_figures -> value i <> [] ->
                         ~ occurs (value i) text).
  { intros i [<- | [<- | [<- | []]]] Hne;
      try (rewrite <- occursb_spec; vm_compute; discriminate).
    now elim Hne. }
  split; (split; [assumption|]).
  - exact (proj1 redact_leaves_clean_text text contact_details H1).
  - exact (proj2 redact_leaves_clean_text text quarter_figures H2).
Defined.

(** X5: redaction is global: when the values have no square bracket, do not
    occur in a marker and, for [redactPII], are not empty, the redacted text
    holds no occurrence of any of them, however often and wherever they
    stood in the text. *)
Theorem redact_removes_every_occurrence :
  (forall (text : str) (items : list PiiItem),
      pii_values_apart items ->
      forall i, In i items -> ~ occurs (value i) (redactPII text items))
  /\
  (forall (text : str) (items : list ConfidentialItem),
      confidential_values_apart items ->
      forall i, In i items -> value i <> [] ->
                ~ occurs (value i) (redactConfidential text items)).
Proof.
  split; intros text items H.
  - now apply redactPII_removes_values.
  - now apply redactConfidential_removes_values.
Qed.

Lemma redact_removes_every_occurrence_witness :
  let text := lit "john@x.com, again john@x.com; 555-123-4567john@x.com" in
  pii_values_apart contact_details
  /\ forall i, In i contact_details ->
               ~ occurs (value i) (redactPII text contact_details).
Proof.
  intros text.
  assert (H1 : pii_values_apart contact_details).
  { intros i [<- | [<- | []]];
      (split; [discriminate | apply apart_fromb_spec; reflexivity]). }
  split; [exact H1|].
  exact (proj1 redact_removes_every_occurrence text contact_details H1).
Defined.

(** ** The detector adapters *)

Lemma detectPII_runs (w : world PiiType) text h :
  match generated w h text with
  | Some found =>
      detectPII w text h = (Returned found, h ++ [(GenerateObject text, true)])
  | None =>
      detectPII w text h
      = (Returned [], h ++ [(GenerateObject text, false); (LoggerWarn, true)])
  end.
Proof.
  unfold detectPII, try_catch, bind, generateObject, logger, ret.
  destruct (generated w h text); [reflexivity | now rewrite <- app_assoc].
Qed.

Lemma detectConfidential_runs (w : world ConfidentialType) text h :
  match JS.trim text with
  | [] => detectConfidential w text h = (Returned [], h)
  | _ :: _ =>
      match generated w h text with
      | Some found =>
          detectConfidential w text h
          = (Returned found, h ++ [(GenerateObject text, true)])
      | None =>
          detectConfidential w text h
          = (Returned [], h ++ [(GenerateObject text, false); (LoggerWarn, true)])
      end
  end.
Proof.
  unfold detectConfidential.
  destruct (JS.trim text) as [|c r] eqn:Et.
  - now rewrite orb_true_r.
  - destruct text as [|x text]; [discriminate Et|]. cbn [JS.truthy negb orb].
    unfold try_catch, bind, generateObject, logger, ret.
    destruct (generated w h (x :: text)); [reflexivity | now rewrite <- app_assoc].
Qed.

(** X6: [detectPII] never throws.  When the model answers, the adapter
    returns the answer as it is; when the model call throws, the adapter
    logs one warning and returns the empty list. *)
Theorem detectPII_fails_open (w : world PiiType) text h :
  match generated w h text with
  | Some found =>
      detectPII w text h = (Returned found, h ++ [(GenerateObject text, true)])
  | None =>
      detectPII w text h
      = (Returned [], h ++ [(GenerateObject text, false); (LoggerWarn, true)])
  end.
Proof. apply detectPII_runs. Qed.

(** X7: [detectConfidential] does not call the model for text that is empty
    or white space only: it returns the empty list at once.  For any other
    text it never throws either: it returns the model's answer, or logs one
    warning and returns the empty list when the model call throws. *)
Theorem detectConfidential_guard_and_fail_open (w : world ConfidentialType) text h :
  match JS.trim text with
  | [] => detectConfidential w text h = (Returned [], h)
  | _ :: _ =>
      match generated w h text with
      | Some found =>
          detectConfidential w text h
          = (Returned found, h ++ [(GenerateObject text, true)])
      | None =>
          detectConfidential w text h
          = (Returned [], h ++ [(GenerateObject text, false); (LoggerWarn, true)])
      end
  end.
Proof. apply detectConfidential_runs. Qed.

Example detectConfidential_white_space :
  detectConfidential (scripted_detector (fun _ => formula_span))
    [32; 10; 9; 160]%N []
  = (Returned [], []).
Proof. reflexivity. Qed.

(** ** The sessions *)

Lemma session_call_app d1 d2 :
  Forall session_call d1 -> Forall session_call d2 -> Forall session_call (d1 ++ d2).
Proof. intros H1 H2. apply Forall_app. now split. Qed.

Lemma session_call_detector d : Forall detector_call d -> Forall session_call d.
Proof.
  apply Forall_impl. intros [k ok]. unfold detector_call, session_call. cbn.
  now destruct k.
Qed.

Lemma session_call_audit line ok :
  line <> complete_line -> line <> error_line ->
  session_call (ChanWrite auditStream line, ok).
Proof. intros H1 H2. now split. Qed.

Lemma checking_line_in_session n ok :
  session_call (ChanWrite auditStream (checking_line n), ok).
Proof. apply session_call_audit; discriminate. Qed.

Lemma final_check_line_in_session n ok :
  session_call (ChanWrite auditStream (final_check_line n), ok).
Proof. apply session_call_audit; discriminate. Qed.

Lemma emitted_line_in_session n ok :
  session_call (ChanWrite auditStream (emitted_line n), ok).
Proof. apply session_call_audit; discriminate. Qed.

Lemma verdict_line_in_session v (items : list (Item (K v))) ok :
  session_call (ChanWrite auditStream (verdict_line v items), ok).
Proof.
  unfold verdict_line. destruct (0 <? length items).
  - apply session_call_audit; discriminate.
  - apply session_call_audit; destruct v; discriminate.
Qed.

Lemma emission_in_session v ct san : Forall session_call (emission v ct san).
Proof.
  unfold emission. destruct v; cbv zeta.
  1,2: destruct (JS.truthy (JS.slice (length ct) san));
       [ constructor; [exact I|]; constructor; [apply emitted_line_in_session|];
         constructor
       | constructor ].
  constructor; [exact I | constructor].
Qed.

(** With working channels a flush returns, whatever the detector does. *)
Lemma flush_runs v (w : world (K v)) ct buf h :
  channels_work w ->
  exists ct' d,
    validateAndFlush v w ct buf h = (Returned ct', h ++ d)
    /\ Forall session_call d.
Proof.
  intros Hw.
  destruct (detect_returns v w (ct ++ buf) (h ++ [checking ct buf]))
    as (items & d & Hd & Hcalls & _).
  rewrite (@validateAndFlush_works v w ct buf h items d Hw Hd).
  eexists _, _. split; [reflexivity|].
  repeat apply session_call_app.
  - constructor; [apply checking_line_in_session | constructor].
  - now apply session_call_detector.
  - constructor; [apply verdict_line_in_session | constructor].
  - apply emission_in_session.
Qed.

(** With working channels the loop runs until the stream ends or throws. *)
Lemma for_await_runs v (w : world (K v)) s :
  channels_work w ->
  forall st h,
  exists d,
    Forall session_call d
    /\ if stream_throws s
       then for_await v w s st h = (Thrown, h ++ d)
       else exists st', for_await v w s st h = (Returned st', h ++ d).
Proof.
  intros Hw. induction s as [| |ev rest IH]; intros st h.
  - exists []. split; [constructor|]. exists st. cbn. now rewrite app_nil_r.
  - exists []. split; [constructor|]. cbn. now rewrite app_nil_r.
  - destruct ev as [text| |].
    + cbn [stream_throws].
      destruct (shouldFlush v (pendingBuffer st ++ text)) eqn:Eflush.
      * destruct (@flush_runs v w (carryTail st) (pendingBuffer st ++ text) h Hw)
          as (ct' & d1 & Hf & Hc1).
        assert (E : for_await v w (next (text_delta text) rest) st h
                    = for_await v w rest {| pendingBuffer := []; carryTail := ct' |}
                        (h ++ d1)).
        { cbn [for_await]. unfold on_event. cbv zeta. rewrite Eflush.
          unfold bind at 1. unfold bind at 1. now rewrite Hf. }
        rewrite E.
        destruct (IH {| pendingBuffer := []; carryTail := ct' |} (h ++ d1))
          as (d2 & Hc2 & Hrun).
        exists (d1 ++ d2). split; [now apply session_call_app|].
        rewrite app_assoc. exact Hrun.
      * assert (E : for_await v w (next (text_delta text) rest) st h
                    = for_await v w rest
                        {| pendingBuffer := pendingBuffer st ++ text;
                           carryTail := carryTail st |} h).
        { cbn [for_await]. unfold on_event. cbv zeta. now rewrite Eflush. }
        rewrite E. apply IH.
    + exists []. split; [constructor|]. exists st. cbn. now rewrite app_nil_r.
    + cbn [stream_throws].
      change (for_await v w (next other rest) st h) with (for_await v w rest st h).
      apply IH.
Qed.

Lemma drain_runs v (w : world (K v)) st h :
  channels_work w ->
  exists st' d,
    drain v w st h = (Returned st', h ++ d) /\ Forall session_call d.
Proof.
  intros Hw. unfold drain. destruct (0 <? length (pendingBuffer st)).
  - unfold write. unfold bind at 1. rewrite perform_works by exact Hw.
    destruct (@flush_runs v w (carryTail st) (pendingBuffer st)
                (h ++ [(ChanWrite auditStream
                          (final_check_line (length (pendingBuffer st))), true)]) Hw)
      as (ct' & d1 & Hf & Hc1).
    unfold bind. rewrite Hf. unfold ret.
    eexists _, (_ :: d1). rewrite <- app_assoc. split; [reflexivity|].
    constructor; [apply final_check_line_in_session | exact Hc1].
  - exists st, []. unfold ret. rewrite app_nil_r. split; [reflexivity | constructor].
Qed.

(** X8: a session whose channels work and whose generator does not throw
    always runs to its end, whatever the detector answers or however it
    fails: the task returns, the audit stream gets the start line first and
    [Stream complete.] last, then the main stream and the audit stream are
    closed, in this order and each once; the error logger is not called. *)
Theorem session_completes v (w : world (K v)) s h :
  channels_work w ->
  stream_throws s = false ->
  exists d,
    background_task v w s h
    = (Returned tt,
       h ++ (ChanWrite auditStream (start_line v), true) :: d ++ closing_calls)
    /\ Forall session_call d.
Proof.
  intros Hw Hs.
  destruct (@for_await_runs v w s Hw initial
              (h ++ [(ChanWrite auditStream (start_line v), true)]))
    as (d1 & Hc1 & Hrun).
  rewrite Hs in Hrun. destruct Hrun as [st1 Hrun].
  destruct (@drain_runs v w st1
              ((h ++ [(ChanWrite auditStream (start_line v), true)]) ++ d1) Hw)
    as (st2 & d2 & Hd & Hc2).
  exists (d1 ++ d2). split; [|now apply session_call_app].
  unfold background_task, try_catch, try_block, write, close.
  unfold bind at 1. unfold bind at 1. rewrite perform_works by exact Hw.
  unfold bind at 1. fold initial. rewrite Hrun.
  unfold bind at 1. rewrite Hd.
  unfold bind. rewrite !perform_works by exact Hw. unfold ret, closing_calls.
  f_equal. rewrite <- !app_assoc. reflexivity.
Qed.

Lemma session_completes_witness :
  let w := scripted_detector (fun _ => contact_details) in
  channels_work w /\ stream_throws spec_scenario = false
  /\ exists d,
      background_task pii w spec_scenario []
      = (Returned tt,
         [] ++ (ChanWrite auditStream (start_line pii), true) :: d ++ closing_calls)
      /\ Forall session_call d.
Proof.
  intros w.
  assert (Hw : channels_work w) by (intros h k; reflexivity).
  split; [exact Hw|]. split; [reflexivity|].
  exact (@session_completes pii w spec_scenario [] Hw eq_refl).
Defined.

Lemma catch_block_works v (w : world (K v)) h :
  channels_work w -> catch_block v w h = (Returned tt, h ++ catch_calls v).
Proof.
  intros Hw. unfold catch_block, catch_calls, logger, write, close, try_catch.
  unfold bind at 1.
  destruct v; unfold bind; rewrite !perform_works by exact Hw; unfold ret;
    now rewrite <- !app_assoc.
Qed.

(** X9: when the generator throws and the channels work, the session ends
    in the [catch] block and the task still returns: the error is logged,
    the PII drivers write their error line, and every driver closes the main
    stream and the audit stream, each once.  [Stream complete.] is not
    written and the text still pending is not flushed. *)
Theorem generator_failure_closes_streams v (w : world (K v)) s h :
  channels_work w ->
  stream_throws s = true ->
  exists d,
    background_task v w s h
    = (Returned tt,
       h ++ (ChanWrite auditStream (start_line v), true) :: d ++ catch_calls v)
    /\ Forall session_call d.
Proof.
  intros Hw Hs.
  destruct (@for_await_runs v w s Hw initial
              (h ++ [(ChanWrite auditStream (start_line v), true)]))
    as (d & Hc & Hrun).
  rewrite Hs in Hrun.
  exists d. split; [|exact Hc].
  unfold background_task, try_catch, try_block, write.
  unfold bind at 1. unfold bind at 1. rewrite perform_works by exact Hw.
  unfold bind at 1. fold initial. rewrite Hrun.
  rewrite catch_block_works by exact Hw.
  f_equal. now rewrite <- !app_assoc.
Qed.

Lemma generator_failure_closes_streams_witness :
  let w := failing_detector ConfidentialType in
  channels_work w /\ stream_throws broken_stream = true
  /\ exists d,
      background_task confidential w broken_stream []
      = (Returned tt,
         [] ++ (ChanWrite auditStream (start_line confidential), true)
            :: d ++ catch_calls confidential)
      /\ Forall session_call d.
Proof.
  intros w.
  assert (Hw : channels_work w) by (intros h k; reflexivity).
  split; [exact Hw|]. split; [reflexivity|].
  exact (@generator_failure_closes_streams confidential w broken_stream [] Hw eq_refl).
Defined.





(** X11: in the two PII drivers the [catch] block, once its audit line is
    written, attempts to close the main stream and then the audit stream
    whether or not the first close fails, and returns: a failing close is
    swallowed. *)
Theorem pii_catch_block_attempts_both_closes v (w : world (K v)) h :
  v <> confidential ->
  chan_ok w (h ++ [(LoggerError, true)]) (ChanWrite auditStream error_line) = true ->
  exists ok1 ok2,
    catch_block v w h =
    (Returned tt,
     h ++ [ (LoggerError, true);
            (ChanWrite auditStream error_line, true);
            (ChanClose mainStream, ok1);
            (ChanClose auditStream, ok2) ]).
Proof. apply wrapped_catch_block_closes_both. Qed.

Lemma pii_catch_block_attempts_both_closes_witness :
  let w := main_close_fails PiiType in
  pii_sentence <> confidential
  /\ chan_ok w ([] ++ [(LoggerError, true)]) (ChanWrite auditStream error_line) = true
  /\ exists ok1 ok2,
      catch_block pii_sentence w [] =
      (Returned tt,
       [] ++ [ (LoggerError, true);
               (ChanWrite auditStream error_line, true);
               (ChanClose mainStream, ok1);
               (ChanClose auditStream, ok2) ]).
Proof.
  intros w.
  assert (Hv : pii_sentence <> confidential) by discriminate.
  split; [exact Hv|]. split; [reflexivity|].
  exact (@pii_catch_block_attempts_both_closes pii_sentence w [] Hv eq_refl).
Defined.

(** ** Failed channel calls *)

Lemma careful_ret {A} (a : A) : careful (ret a).
Proof.
  intros h b h' H. apply ret_inv in H as [_ <-]. exists [].
  rewrite app_nil_r. split; [reflexivity | constructor].
Qed.

Lemma careful_bind {A B} (m : M A) (k : A -> M B) :
  careful m -> (forall a, careful (k a)) -> careful (bind m k).
Proof.
  intros Hm Hk h b h' H. apply bind_inv in H as (a & h1 & H1 & H2).
  apply Hm in H1 as (d1 & -> & Hd1). apply Hk in H2 as (d2 & -> & Hd2).
  exists (d1 ++ d2). rewrite app_assoc. split; [reflexivity|].
  apply Forall_app. now split.
Qed.

Lemma careful_perform {K} (w : world K) k : careful (perform w k).
Proof.
  intros h a h' H. unfold perform in H. cbv zeta in H.
  destruct (chan_ok w h k); [|discriminate].
  injection H as _ <-. exists [(k, true)]. split; [reflexivity|].
  constructor; [discriminate | constructor].
Qed.

Lemma careful_if {A} (b : bool) (m1 m2 : M A) :
  careful m1 -> careful m2 -> careful (if b then m1 else m2).
Proof. now destruct b. Qed.

Lemma careful_detect v (w : world (K v)) text : careful (detect v w text).
Proof.
  assert (HP : forall (w : world PiiType), careful (detectPII w text)).
  { intros w' h items h' H. pose proof (detectPII_runs w' text h) as Hd.
    destruct (generated w' h text); cbv beta iota in Hd; rewrite Hd in H;
      injection H as _ <-; eexists; (split; [reflexivity|]).
    - constructor; [discriminate | constructor].
    - constructor; [intros _; now exists text|].
      constructor; [discriminate | constructor]. }
  destruct v; try apply HP.
  intros h items h' H.
  pose proof (detectConfidential_runs w text h) as Hd.
  change (detectConfidential w text h = (Returned items, h')) in H.
  destruct (JS.trim text); cbv beta iota in Hd.
  - rewrite Hd in H. injection H as _ <-. exists []. rewrite app_nil_r.
    split; [reflexivity | constructor].
  - destruct (@generated ConfidentialType w h text); cbv beta iota in Hd;
      rewrite Hd in H; injection H as _ <-; eexists; (split; [reflexivity|]).
    + constructor; [discriminate | constructor].
    + constructor; [intros _; now exists text|].
      constructor; [discriminate | constructor].
Qed.

Lemma careful_validateAndFlush v (w : world (K v)) ct buf :
  careful (validateAndFlush v w ct buf).
Proof.
  unfold validateAndFlush, write. cbv zeta.
  apply careful_bind; [apply careful_perform|]. intros _.
  apply careful_bind; [apply careful_detect|]. intros items.
  apply careful_bind.
  - apply careful_if; (apply careful_bind; [apply careful_perform|]);
      intros _; apply careful_ret.
  - intros san. apply careful_bind; [|intros _; apply careful_ret].
    unfold emit, write. destruct v; cbv zeta;
      try (apply careful_if; [|apply careful_ret]);
      try (apply careful_bind; [apply careful_perform | intros _]);
      apply careful_perform.
Qed.

Lemma careful_on_event v (w : world (K v)) st ev : careful (on_event v w st ev).
Proof.
  unfold on_event. destruct ev; try apply careful_ret. cbv zeta.
  apply careful_if; [|apply careful_ret].
  apply careful_bind; [apply careful_validateAndFlush | intros ct; apply careful_ret].
Qed.

Lemma careful_for_await v (w : world (K v)) s : forall st, careful (for_await v w s st).
Proof.
  induction s as [| |ev rest IH]; intros st.
  - apply careful_ret.
  - intros h a h' H. discriminate H.
  - cbn [for_await]. apply careful_bind; [apply careful_on_event|].
    intros st'. destruct ev; [apply IH | apply careful_ret | apply IH].
Qed.

Lemma careful_try_block v (w : world (K v)) s : careful (try_block v w s).
Proof.
  unfold try_block, write, close.
  apply careful_bind; [apply careful_perform | intros _].
  apply careful_bind; [apply careful_for_await | intros st].
  apply careful_bind.
  - unfold drain, write. apply careful_if; [|apply careful_ret].
    apply careful_bind; [apply careful_perform | intros _].
    apply careful_bind; [apply careful_validateAndFlush | intros ct; apply careful_ret].
  - intros st'.
    repeat (apply careful_bind; [apply careful_perform | intros _]).
    apply careful_ret.
Qed.

Lemma extends_validateAndFlush v (w : world (K v)) ct buf :
  extends (validateAndFlush v w ct buf).
Proof.
  intros h. destruct (validateAndFlush_starts v w ct buf h) as (ok & r & Hs).
  eexists. exact Hs.
Qed.

Lemma extends_for_await v (w : world (K v)) s : forall st, extends (for_await v w s st).
Proof.
  induction s as [| |ev rest IH]; intros st; cbn [for_await]; auto with extends.
  apply extends_bind.
  - unfold on_event. destruct ev; auto with extends. cbv zeta.
    apply extends_if; auto with extends.
    apply extends_bind; [apply extends_validateAndFlush | auto with extends].
  - intros st'. destruct ev; auto with extends.
Qed.

Lemma extends_try_block v (w : world (K v)) s : extends (try_block v w s).
Proof.
  unfold try_block, write, close, drain.
  apply extends_bind; [auto with extends | intros _].
  apply extends_bind; [apply extends_for_await | intros st].
  apply extends_bind.
  - apply extends_if; [|auto with extends].
    apply extends_bind; [unfold write; auto with extends | intros _].
    apply extends_bind; [apply extends_validateAndFlush | auto with extends].
  - intros st'. auto 8 with extends.
Qed.

Lemma extends_catch_block v (w : world (K v)) : extends (catch_block v w).
Proof. unfold catch_block, write, close. destruct v; auto 8 with extends. Qed.

(** X12: a failed channel call is never passed over.  In every session,
    whatever the generator, the detector and the channels do: either the
    error logger has been called (the [catch] block has run), or the only
    calls that failed are calls of the detection model, which the adapters
    catch. *)
Theorem channel_failures_reach_the_catch_block v (w : world (K v)) s h :
  exists d,
    snd (background_task v w s h) = h ++ d
    /\ (In (LoggerError, true) d \/ only_model_failures d).
Proof.
  unfold background_task, try_catch.
  assert (Hc : careful (try_block v w s ;; ret tt)).
  { apply careful_bind; [apply careful_try_block | intros st; apply careful_ret]. }
  destruct ((try_block v w s ;; ret tt) h) as [[a|] h1] eqn:E.
  - apply Hc in E as (d & -> & Hd). exists d. split; [reflexivity | now right].
  - assert (Hx : extends (try_block v w s ;; ret tt)).
    { apply extends_bind; [apply extends_try_block | auto with extends]. }
    destruct (Hx h) as [d1 Hd1]. rewrite E in Hd1. simpl in Hd1. subst h1.
    pose proof (extends_catch_block v w (h ++ d1)) as [d2 Hd2].
    exists (d1 ++ d2). split; [now rewrite Hd2, app_assoc|].
    left. apply in_or_app. right.
    unfold catch_block, logger in Hd2. unfold bind at 1 in Hd2.
    set (rest := match v with confidential => _ | _ => _ end) in Hd2.
    assert (Hr : extends rest).
    { subst rest. unfold write, close. destruct v; auto 8 with extends. }
    destruct (Hr ((h ++ d1) ++ [(LoggerError, true)])) as [d3 Hd3].
    cbv beta in Hd2. rewrite Hd3, <- !app_assoc in Hd2.
    apply app_inv_head in Hd2. apply app_inv_head in Hd2. subst d2. now left.
Qed.

(** ** The buffers *)







Example short_answer_main_stream :
  main_output
    (snd (background_task pii (scripted_detector (fun _ => contact_details))
            short_answer []))
  = lit "Mail [REDACTED:EMAIL] now.".
Proof. vm_compute. reflexivity. Qed.

Lemma slice_last_of_tail n a b :
  JS.slice_last n (JS.slice_last n a ++ b) = JS.slice_last n (a ++ b).
Proof.
  destruct n as [|n]; [reflexivity|]. unfold JS.slice_last.
  destruct (Nat.le_gt_cases (length a) (S n)) as [Hle | Hgt].
  - replace (length a - S n) with 0 by lia. reflexivity.
  - rewrite !length_app, length_skipn.
    replace (length a - (length a - S n) + length b - S n) with (length b) by lia.
    replace (length a + length b - S n) with ((length a - S n) + length b) by lia.
    rewrite Nat.add_comm, <- skipn_skipn.
    f_equal. rewrite skipn_app.
    replace (length a - S n - length a) with 0 by lia. reflexivity.
Qed.

Lemma validateAndFlush_nothing_found_result v (w : world (K v)) ct buf h ct' h' :
  finds_nothing w ->
  validateAndFlush v w ct buf h = (Returned ct', h') ->
  ct' = JS.slice_last (CARRY_TAIL_LENGTH v) (ct ++ buf).
Proof.
  intros Hn H. unfold validateAndFlush in H. cbv zeta in H.
  apply bind_inv in H as (_ & h1 & _ & H).
  apply bind_inv in H as (items & h2 & Hd & H).
  destruct (@detect_nothing v w (ct ++ buf) h1 Hn) as (d & Hd' & _).
  rewrite Hd' in Hd. injection Hd as <- _.
  apply bind_inv in H as (sanitized & h3 & Hs & H).
  cbn [length Nat.ltb Nat.leb] in Hs.
  apply bind_inv in Hs as (_ & h4 & _ & Hs). apply ret_inv in Hs as [<- _].
  apply bind_inv in H as (_ & h5 & _ & H).
  now apply ret_inv in H as [<- _].
Qed.

Lemma for_await_carryTail v (w : world (K v)) s :
  finds_nothing w ->
  forall st h st' h' flushed,
    carryTail st = JS.slice_last (CARRY_TAIL_LENGTH v) flushed ->
    for_await v w s st h = (Returned st', h') ->
    exists flushed',
      flushed' ++ pendingBuffer st' = flushed ++ pendingBuffer st ++ concat (deltas s)
      /\ carryTail st' = JS.slice_last (CARRY_TAIL_LENGTH v) flushed'.
Proof.
  intros Hn. induction s as [| |ev rest IH]; intros st h st' h' F Hct H.
  - apply ret_inv in H as [<- _]. exists F. cbn. now rewrite app_nil_r.
  - discriminate.
  - cbn [for_await] in H. apply bind_inv in H as (st1 & h1 & Hev & H).
    destruct ev as [text| |].
    + cbn [deltas concat]. unfold on_event in Hev. cbv zeta in Hev.
      destruct (shouldFlush v (pendingBuffer st ++ text)).
      * apply bind_inv in Hev as (ct' & h2 & Hf & Hev).
        apply ret_inv in Hev as [<- _].
        apply (@validateAndFlush_nothing_found_result v w _ _ _ _ _ Hn) in Hf.
        rewrite Hct, slice_last_of_tail in Hf.
        destruct (IH {| pendingBuffer := []; carryTail := ct' |} h1 st' h'
                    (F ++ pendingBuffer st ++ text) Hf H)
          as (F' & HF & Hc).
        exists F'. split; [|exact Hc]. rewrite HF. cbn [pendingBuffer app].
        now rewrite <- !app_assoc.
      * apply ret_inv in Hev as [<- _].
        destruct (IH {| pendingBuffer := pendingBuffer st ++ text;
                        carryTail := carryTail st |} h1 st' h' F Hct H)
          as (F' & HF & Hc).
        exists F'. split; [|exact Hc]. rewrite HF. cbn [pendingBuffer].
        now rewrite <- !app_assoc.
    + apply ret_inv in Hev as [<- _]. apply ret_inv in H as [<- _].
      exists F. cbn. now rewrite app_nil_r.
    + apply ret_inv in Hev as [<- _]. cbn [deltas]. now apply (IH st h1 st' h' F Hct H).
Qed.

(** X15: while nothing is redacted, the carry tail is the end of the text
    flushed so far.  With a detector that reports nothing, in each of the
    three drivers and at every point of the loop, the deltas consumed split
    into the text already flushed and the pending buffer, and [carryTail]
    holds the last [CARRY_TAIL_LENGTH] code units of the flushed text (all
    of it when it is shorter). *)
Theorem carryTail_is_tail_of_flushed_text v (w : world (K v)) s h st h' :
  finds_nothing w ->
  for_await v w s initial h = (Returned st, h') ->
  exists flushed,
    flushed ++ pendingBuffer st = concat (deltas s)
    /\ carryTail st = JS.slice_last (CARRY_TAIL_LENGTH v) flushed.
Proof.
  intros Hn H.
  apply (@for_await_carryTail v w s Hn initial h st h' []) in H.
  - exact H.
  - now destruct v.
Qed.

Lemma carryTail_is_tail_of_flushed_text_witness :
  let w := failing_detector PiiType in
  let s := next (text_delta long_sentence)
             (next (text_delta long_sentence) (next (text_delta (lit "It")) done)) in
  let r := for_await pii_sentence w s initial [] in
  (finds_nothing w /\ r = (Returned (returned_or initial r), snd r))
  /\ exists flushed,
      flushed ++ pendingBuffer (returned_or initial r) = concat (deltas s)
      /\ carryTail (returned_or initial r)
         = JS.slice_last (CARRY_TAIL_LENGTH pii_sentence) flushed.
Proof.
  intros w s r.
  assert (Hn : finds_nothing w) by (intros h text; now left).
  assert (Hr : r = (Returned (returned_or initial r), snd r)) by reflexivity.
  split; [now split|].
  exact (@carryTail_is_tail_of_flushed_text pii_sentence w s []
           (returned_or initial r) (snd r) Hn Hr).
Defined.

(** ** Sessions in which nothing is found *)

(** X16: text in which the detector finds nothing passes unchanged through
    the two incremental drivers.  When the detector reports no span (it
    answers with none, or it fails), the channels work and the generator
    does not throw, the task returns, the main stream holds the deltas
    concatenated in order, no audit line claims a finding, and the session
    ends with [Stream complete.] and the two closes. *)
Theorem clean_text_passes_unchanged v (w : world (K v)) s h :
  v <> pii_sentence ->
  channels_work w ->
  finds_nothing w ->
  stream_throws s = false ->
  exists d,
    background_task v w s h = (Returned tt, h ++ d ++ closing_calls)
    /\ main_output d = concat (deltas s)
    /\ none_claimed d.
Proof. intros Hv Hw Hn Hs. now apply session_nothing_found. Qed.

Lemma clean_text_passes_unchanged_witness :
  let w := scripted_detector (fun _ => []) : world ConfidentialType in
  (confidential <> pii_sentence /\ channels_work w /\ finds_nothing w
   /\ stream_throws two_chunks = false)
  /\ exists d,
      background_task confidential w two_chunks []
      = (Returned tt, [] ++ d ++ closing_calls)
      /\ main_output d = concat (deltas two_chunks)
      /\ none_claimed d.
Proof.
  intros w.
  assert (Hv : confidential <> pii_sentence) by discriminate.
  assert (Hw : channels_work w) by (intros h k; reflexivity).
  assert (Hn : finds_nothing w) by (intros h text; now right).
  split; [now repeat split|].
  exact (@clean_text_passes_unchanged confidential w two_chunks [] Hv Hw Hn eq_refl).
Defined.

(** ** The order of replacement and the audit lines of a flush *)

(** X17: [redactConfidential] replaces longest value first: the items are
    taken in an order that is a rearrangement of the list in which no value
    is longer than one before it. *)
Theorem redactConfidential_replaces_longest_first text items :
  exists sorted,
    Permutation items sorted
    /\ Sorted (fun a b => length (value b) <= length (value a)) sorted
    /\ redactConfidential text items = fold_left redactConfidential_step sorted text.
Proof. apply redactConfidential_longest_first. Qed.

(** X18: what a flush writes when the channels work.  The audit stream gets
    [Checking n chars...] with [n] the length of carry tail and buffer
    together, then the line with the detector's verdict.  An incremental
    driver whose [toEmit] is not empty then makes one write of [toEmit] to
    the main stream and adds [Emitted m chars.] with [m] the length of
    [toEmit]; with an empty [toEmit] it writes neither.  The
    size-or-sentence driver makes one write of the whole sanitized text and
    writes no [Emitted] line. *)
Theorem flush_writes v (w : world (K v)) carryTail buffer h items :
  channels_work w ->
  fst (detect v w (carryTail ++ buffer) (h ++ [checking carryTail buffer]))
    = Returned items ->
  let h' := snd (validateAndFlush v w carryTail buffer h) in
  let sanitized := sanitize v (carryTail ++ buffer) items in
  let toEmit := JS.slice (length carryTail) sanitized in
  audit_lines h' =
    audit_lines h
    ++ [ checking_line (length carryTail + length buffer); verdict_line v items ]
    ++ match v, toEmit with
       | (confidential | pii), _ :: _ => [ emitted_line (length toEmit) ]
       | _, _ => []
       end
  /\
  written mainStream h' =
    written mainStream h
    ++ match v, toEmit with
       | (confidential | pii), _ :: _ => [ toEmit ]
       | (confidential | pii), [] => []
       | pii_sentence, _ => [ sanitized ]
       end.
Proof.
  intros Hw Hans h' sanitized toEmit.
  destruct (@detect_answer v w _ _ _ Hans) as (d & Hd & Hcalls).
  subst h'. rewrite (@validateAndFlush_works v w carryTail buffer h items d Hw Hd).
  cbn [snd]. unfold audit_lines. fold sanitized.
  rewrite !written_app, !(@detector_calls_written _ d Hcalls).
  cbn [written flat_map chan_eqb app fst checking]. rewrite length_app.
  unfold emission. fold toEmit.
  destruct v; cbv zeta; destruct toEmit; cbn; rewrite ?app_nil_r; now split.
Qed.

Lemma flush_writes_witness :
  let w := scripted_detector (fun _ => contact_details) in
  let carryTail := lit "Write to " in
  let buffer := lit "john@x.com today." in
  let h' := snd (validateAndFlush pii w carryTail buffer []) in
  (channels_work w
   /\ fst (detect pii w (carryTail ++ buffer) ([] ++ [checking carryTail buffer]))
      = Returned contact_details)
  /\ audit_lines h' =
       [ lit "Checking 26 chars..." ++ [LF];
         lit "Found 2 PII item(s): email, phone" ++ [LF];
         lit "Emitted 23 chars." ++ [LF] ]
  /\ written mainStream h' = [ lit "[REDACTED:EMAIL] today." ].
Proof.
  intros w carryTail buffer h'.
  assert (Hw : channels_work w) by (intros h k; reflexivity).
  assert (Hd : fst (detect pii w (carryTail ++ buffer)
                      ([] ++ [checking carryTail buffer]))
               = Returned contact_details) by reflexivity.
  split; [now split|].
  exact (@flush_writes pii w carryTail buffer [] contact_details Hw Hd).
Defined.
